(** * mcping: the Server List Ping wire codec of [pkg/pinging/ping.go]

    A shallow embedding of the packet framer, the handshake and status
    request encoders and the status response decoder, together with the
    parts of Go's [encoding/binary], [net], [strconv], [io] and runtime
    that the code calls.

    Conventions.
    - A Go [byte] is a [Z] in [0, 256); a [[]byte] is a [list byte].
    - A [uint64] is a [Z] in [0, 2^64); conversions wrap with [uint64].
    - A Go [string] is a [String.string]; [bytesOf] gives its bytes.
    - A function that can panic returns an [outcome]. *)

From Stdlib Require Import ZArith List String Ascii Bool Lia.
From Stdlib Require Import DecimalString DecimalPos.
Import ListNotations.
Local Open Scope string_scope.
Local Open Scope list_scope.
Local Open Scope Z_scope.

(** ** Machine integers *)

Definition byte := Z.

Definition uint8 (z : Z) : Z := z mod 2 ^ 8.
Definition uint16 (z : Z) : Z := z mod 2 ^ 16.
Definition uint64 (z : Z) : Z := z mod 2 ^ 64.

(** Conversion to a signed 16-bit integer keeps the low 16 bits and reads
    them in two's complement. *)
Definition int16 (z : Z) : Z := (z + 2 ^ 15) mod 2 ^ 16 - 2 ^ 15.

Definition len {A : Type} (l : list A) : Z := Z.of_nat (List.length l).

(** ** Errors and panics *)

(** The error values the code creates or receives.  [errorsNew] is
    [errors.New]; the others come from the Go libraries. *)
Inductive error : Type :=
| errorsNew (msg : string)
| AddrError (why addr : string)
| NumError (func num why : string)
| OpError (op : string)
| SyntaxError (msg : string)
| EOF
| ErrUnexpectedEOF
| ErrShortWrite
| errOverflow.

Inductive panic : Type :=
| PanicError (e : error)
| RuntimeError (msg : string).

Inductive outcome (A : Type) : Type :=
| Returned (a : A)
| Panicked (p : panic).
Arguments Returned {A} a.
Arguments Panicked {A} p.

(** ** Varint codec *)

Definition MaxVarintLen64 : nat := 10.

(** The loop of [encodeVarint].  [room] is the number of cells of
    [buf [10]byte] that are still free, that is [10 - n]; writing with
    no room left is Go's index-out-of-range panic, here [None]. *)
Fixpoint encodeVarint_loop (room : nat) (x : Z) : option (list byte) :=
  match room with
  | O => None
  | S room' =>
      if 127 <? x then
        match encodeVarint_loop room' (Z.shiftr x 7) with
        | Some rest => Some (Z.lor 0x80 (uint8 (Z.land x 0x7F)) :: rest)
        | None => None
        end
      else Some [uint8 x]
  end.

(** [encodeVarint(x uint64) []byte].  The argument is converted to
    [uint64] as every call site does; the fallback branch is dead code
    (lemma [encodeVarint_in_bounds]). *)
Definition encodeVarint (x : Z) : list byte :=
  match encodeVarint_loop MaxVarintLen64 (uint64 x) with
  | Some bs => bs
  | None => []
  end.

(** [binary.Uvarint(buf) (uint64, int)] of Go's [encoding/binary]:
    the loop [for i, b := range buf] with the accumulator [x] and the
    shift [s]. *)
Fixpoint Uvarint_loop (buf : list byte) (i : nat) (x s : Z) : Z * Z :=
  match buf with
  | [] => (0, 0)
  | b :: buf' =>
      if (i =? MaxVarintLen64)%nat then (0, - (Z.of_nat i + 1))
      else if b <? 0x80 then
        if ((i =? MaxVarintLen64 - 1)%nat && (1 <? b))%bool
        then (0, - (Z.of_nat i + 1))
        else (Z.lor x (uint64 (Z.shiftl b s)), Z.of_nat i + 1)
      else
        Uvarint_loop buf' (S i)
          (Z.lor x (uint64 (Z.shiftl (Z.land b 0x7F) s))) (s + 7)
  end.

Definition Uvarint (buf : list byte) : Z * Z := Uvarint_loop buf 0 0 0.


(** [binary.ReadUvarint(r) (uint64, error)]: the loop
    [for i := 0; i < MaxVarintLen64; i++] that takes one byte per turn
    from the reader.  The reader is the list of the bytes that arrive
    before the stream ends; the bytes not taken are returned. *)
Fixpoint ReadUvarint_loop (r : list byte) (i : nat) (x s : Z)
  : Z * option error * list byte :=
  if (MaxVarintLen64 <=? i)%nat then (x, Some errOverflow, r)
  else
    match r with
    | [] => (x, Some (if (0 <? i)%nat then ErrUnexpectedEOF else EOF), [])
    | b :: r' =>
        if b <? 0x80 then
          if ((i =? MaxVarintLen64 - 1)%nat && (1 <? b))%bool
          then (x, Some errOverflow, r')
          else (Z.lor x (uint64 (Z.shiftl b s)), None, r')
        else
          ReadUvarint_loop r' (S i)
            (Z.lor x (uint64 (Z.shiftl (Z.land b 0x7F) s))) (s + 7)
    end.

Definition ReadUvarint (r : list byte) : Z * option error * list byte :=
  ReadUvarint_loop r 0 0 0.

(** ** Strings *)

Definition bytesOf (s : string) : list byte :=
  map (fun a => Z.of_N (N_of_ascii a)) (list_ascii_of_string s).

Definition strlen (s : string) : Z := Z.of_nat (String.length s).

(** [s[lo:hi]] and [s[lo:]] for indices in range. *)
Definition slice (s : string) (lo hi : Z) : string :=
  substring (Z.to_nat lo) (Z.to_nat (hi - lo)) s.

Definition sliceFrom (s : string) (lo : Z) : string :=
  slice s lo (strlen s).

(** Index of the first [c] in [s], or [-1]. *)
Fixpoint IndexByteString (s : string) (c : ascii) : Z :=
  match s with
  | EmptyString => -1
  | String a s' =>
      if Ascii.eqb a c then 0
      else let r := IndexByteString s' c in
           if r <? 0 then -1 else r + 1
  end.

(** Index of the last [c] in [s], or [-1]. *)
Fixpoint LastIndexByteString (s : string) (c : ascii) : Z :=
  match s with
  | EmptyString => -1
  | String a s' =>
      let r := LastIndexByteString s' c in
      if 0 <=? r then r + 1
      else if Ascii.eqb a c then 0 else -1
  end.

Definition byteAt (s : string) (i : Z) (c : ascii) : bool :=
  match String.get (Z.to_nat i) s with
  | Some a => Ascii.eqb a c
  | None => false
  end.

(** [net.SplitHostPort(hostport) (host, port string, err error)]. *)
Definition SplitHostPort (hostport : string)
  : string * string * option error :=
  let missingPort := "missing port in address" in
  let tooManyColons := "too many colons in address" in
  let addrErr (addr why : string) := ("", "", Some (AddrError why addr)) in
  let i := LastIndexByteString hostport ":" in
  if i <? 0 then addrErr hostport missingPort
  else
    let bracket :=
      if byteAt hostport 0 "[" then
        let e := IndexByteString hostport "]" in
        if e <? 0 then inr (addrErr hostport "missing ']' in address")
        else if e + 1 =? strlen hostport then
          inr (addrErr hostport missingPort)
        else if e + 1 =? i then
          inl (slice hostport 1 e, 1, e + 1)
        else if byteAt hostport (e + 1) ":" then
          inr (addrErr hostport tooManyColons)
        else inr (addrErr hostport missingPort)
      else
        let host := slice hostport 0 i in
        if 0 <=? IndexByteString host ":" then
          inr (addrErr hostport tooManyColons)
        else inl (host, 0, 0)
    in
    match bracket with
    | inr failure => failure
    | inl (host, j, k) =>
        if 0 <=? IndexByteString (sliceFrom hostport j) "[" then
          addrErr hostport "unexpected '[' in address"
        else if 0 <=? IndexByteString (sliceFrom hostport k) "]" then
          addrErr hostport "unexpected ']' in address"
        else (host, sliceFrom hostport (i + 1), None)
    end.

(** The digit loop of [strconv.ParseUint] in base 10 with 64 bits:
    [inl n] is the value, [inr why] the error. *)
Fixpoint parseDigits (cs : list ascii) (n : Z) : Z + string :=
  match cs with
  | [] => inl n
  | c :: cs' =>
      let d := Z.of_N (N_of_ascii c) - 48 in
      if (0 <=? d) && (d <=? 9) then
        let n1 := n * 10 + d in
        if 2 ^ 64 <=? n1 then inr "value out of range"
        else parseDigits cs' n1
      else inr "invalid syntax"
  end.

(** [strconv.Atoi(s) (int, error)] for a 64-bit [int]: an optional
    sign and decimal digits, in the range of [int]. *)
Definition Atoi (s : string) : Z * option error :=
  let fail why := Some (NumError "Atoi" s why) in
  match list_ascii_of_string s with
  | [] => (0, fail "invalid syntax")
  | c :: cs =>
      let neg := Ascii.eqb c "-" in
      let digits := if neg || Ascii.eqb c "+" then cs else c :: cs in
      match digits with
      | [] => (0, fail "invalid syntax")
      | _ =>
          match parseDigits digits 0 with
          | inr why =>
              ((if String.eqb why "value out of range"
                then (if neg then - 2 ^ 63 else 2 ^ 63 - 1) else 0),
               fail why)
          | inl un =>
              if negb neg && (2 ^ 63 <=? un) then
                (2 ^ 63 - 1, fail "value out of range")
              else if neg && (2 ^ 63 <? un) then
                (- 2 ^ 63, fail "value out of range")
              else (if neg then - un else un, None)
          end
      end
  end.

(** [fmt.Sprintf("%s:%d", address, port)]. *)
Definition Sprintf_s_d (address : string) (port : Z) : string :=
  address ++ ":" ++ NilZero.string_of_int (Z.to_int port).

(** ** Buffers and connections *)

(** A [bytes.Buffer] that is only appended to and then read whole. *)
Definition Buffer := list byte.

Definition WriteByte (b : Buffer) (c : byte) : Buffer := b ++ [c].
Definition Write (b : Buffer) (p : list byte) : Buffer := b ++ p.
Definition WriteString (b : Buffer) (s : string) : Buffer := b ++ bytesOf s.
Definition Bytes (b : Buffer) : list byte := b.

(** [binary.BigEndian.PutUint16]. *)
Definition PutUint16 (v : Z) : list byte :=
  [uint8 (Z.shiftr v 8); uint8 v].

(** [binary.Write(pl, binary.BigEndian, v)] for [v] of type [int16]. *)
Definition binaryWrite_int16 (b : Buffer) (v : Z) : Buffer :=
  Write b (PutUint16 (uint16 v)).

(** A TCP connection: the bytes written so far, how many more bytes the
    peer accepts before a write fails, and the bytes it will send. *)
Record Conn : Type := mkConn {
  sent : list byte;
  accepts : Z;
  inbound : list byte
}.

(** [conn.Write(p) (n int, err error)]. *)
Definition connWrite (c : Conn) (p : list byte) : Conn * Z * option error :=
  if len p <=? accepts c then
    (mkConn (sent c ++ p) (accepts c - len p) (inbound c), len p, None)
  else
    let n := Z.max 0 (accepts c) in
    (mkConn (sent c ++ firstn (Z.to_nat n) p) 0 (inbound c), n,
     Some (OpError "write")).

(** [b.WriteTo(conn) (n int64, err error)] of [bytes.Buffer]. *)
Definition WriteTo (b : Buffer) (c : Conn) : Conn * Z * option error :=
  if 0 <? len (Bytes b) then
    let '(c', m, e) := connWrite c (Bytes b) in
    match e with
    | Some e => (c', m, Some e)
    | None => if m =? len (Bytes b) then (c', m, None)
              else (c', m, Some ErrShortWrite)
    end
  else (c, 0, None).

(** [io.ReadFull(r, pl)] for a buffer of [n] bytes: the bytes read, the
    error and the rest of the stream. *)
Definition ReadFull (r : list byte) (n : Z)
  : list byte * option error * list byte :=
  if n <=? len r then
    (firstn (Z.to_nat n) r, None, skipn (Z.to_nat n) r)
  else (r, Some (match r with [] => EOF | _ => ErrUnexpectedEOF end), []).

(** ** The packet framer and the encoders *)

Definition protocolVersion : byte := 0x2F.

Definition makePacket (pl : Buffer) : Buffer :=
  let buf : Buffer := [] in
  let buf := Write buf (encodeVarint (uint64 (len (Bytes pl)))) in
  let buf := Write buf (Bytes pl) in
  buf.

Definition sendHandShake (conn : Conn) (host : string)
  : Conn * outcome (option error) :=
  let pl : Buffer := [] in
  let pl := WriteByte pl 0x00 in
  let pl := WriteByte pl protocolVersion in
  let '(host, port, err) := SplitHostPort host in
  match err with
  | Some e => (conn, Panicked (PanicError e))
  | None =>
      let pl := Write pl (encodeVarint (uint64 (strlen host))) in
      let pl := WriteString pl host in
      let '(iPort, err) := Atoi port in
      match err with
      | Some e => (conn, Panicked (PanicError e))
      | None =>
          let pl := binaryWrite_int16 pl (int16 iPort) in
          let pl := WriteByte pl 0x01 in
          let '(conn', _, err) := WriteTo (makePacket pl) conn in
          match err with
          | Some _ => (conn', Returned (Some (errorsNew "cannot write handshake")))
          | None => (conn', Returned None)
          end
      end
  end.

Definition sendStatusRequest (conn : Conn) : Conn * option error :=
  let pl : Buffer := [] in
  let pl := WriteByte pl 0x00 in
  let '(conn', _, err) := WriteTo (makePacket pl) conn in
  match err with
  | Some _ => (conn', Some (errorsNew "cannot write send status request"))
  | None => (conn', None)
  end.

(** ** The status response decoder and the exchange *)

Record Version : Type := mkVersion {
  Name : string;
  Protocol : Z
}.

Record Players : Type := mkPlayers {
  Max : Z;
  Online : Z;
  Sample : list (list (string * string))
}.

Section StatusExchange.

(** What [json.Unmarshal] stores in an [interface{}] is left abstract. *)
Variable JSONValue : Type.

Record PingResponse : Type := mkPingResponse {
  version : Version;
  players : Players;
  Description : option JSONValue;
  Favicon : string
}.

(** The zero value [PingResponse{}]. *)
Definition zeroPingResponse : PingResponse :=
  mkPingResponse (mkVersion "" 0) (mkPlayers 0 0 []) None "".

(** [json.Unmarshal(data, &res)]: the decoder is given the bytes and the
    value to fill, and returns the value as it has left it (on an error
    it may be partly filled) and the error. *)
Variable json_Unmarshal :
  list byte -> PingResponse -> PingResponse * option error.

(** The largest length [make([]byte, n)] accepts before it panics
    (2^48 on linux/amd64).  Below it the allocation is taken to succeed:
    a run in which the runtime has no memory left for an accepted
    length, and aborts the process, has no outcome here, and the
    statements about lengths within [maxAlloc] are about the runs in
    which the allocation is served. *)
Variable maxAlloc : Z.

(** [net.DialTimeout("tcp", host, 3*time.Second)]. *)
Variable DialTimeout : string -> Conn + error.

Definition readPong (rd : list byte)
  : outcome (option PingResponse * option error) :=
  let '(nl, err, r) := ReadUvarint rd in
  match err with
  | Some _ => Returned (None, Some (errorsNew "could not read length"))
  | None =>
      if maxAlloc <? nl
      then Panicked (RuntimeError "makeslice: len out of range")
      else
        let '(pl, err, _) := ReadFull r nl in
        match err with
        | Some _ =>
            Returned (None, Some (errorsNew
              "could not read length given by length header"))
        | None =>
            let '(_, n) := Uvarint pl in
            if n <=? 0
            then Returned (None, Some (errorsNew "could not read packet id"))
            else
              let '(_, n2) := Uvarint (skipn (Z.to_nat n) pl) in
              if n2 <=? 0
              then Returned (None,
                             Some (errorsNew "could not read string varint"))
              else
                let res := zeroPingResponse in
                let '(res, err) :=
                  json_Unmarshal (skipn (Z.to_nat (n + n2)) pl) res in
                match err with
                | Some _ =>
                    Returned (None,
                              Some (errorsNew "could not read pong json"))
                | None => Returned (Some res, None)
                end
        end
  end.

(** [Ping(address, port)].  The deferred [conn.Close()] has no effect on
    the result and is left out. *)
Definition Ping (address : string) (port : Z)
  : outcome (option PingResponse * option error) :=
  let host := Sprintf_s_d address port in
  match DialTimeout host with
  | inr err => Returned (None, Some err)
  | inl conn =>
      match sendHandShake conn host with
      | (_, Panicked p) => Panicked p
      | (_, Returned (Some err)) => Returned (None, Some err)
      | (conn, Returned None) =>
          match sendStatusRequest conn with
          | (_, Some err) => Returned (None, Some err)
          | (conn, None) =>
              match readPong (inbound conn) with
              | Panicked p => Panicked p
              | Returned (_, Some err) => Returned (None, Some err)
              | Returned (pong, None) => Returned (pong, None)
              end
          end
      end
  end.

End StatusExchange.

Arguments mkPingResponse {JSONValue}.
Arguments zeroPingResponse {JSONValue}.
Arguments readPong {JSONValue}.
Arguments Ping {JSONValue}.

(** A stand-in for [json.Unmarshal] that accepts the empty object only
    and decodes it to the value it was given; used to run the decoder on
    concrete streams. *)
Definition emptyObjectUnmarshal (data : list byte) (res : PingResponse unit)
  : PingResponse unit * option error :=
  if list_eq_dec Z.eq_dec data (bytesOf "{}") then (res, None)
  else (res, Some (SyntaxError "invalid character")).

(** ** Vocabulary of the statements *)

(** [v] is one complete varint holding [x]: the decoder accepts it and
    consumes all of it. *)
Definition varintOf (v : list byte) (x : Z) : Prop :=
  v <> [] /\ Uvarint v = (x, len v).

(** The continuation bit of a byte is set. *)
Definition continues (b : byte) : Prop := 0x80 <= b.

(** Every byte up to the end of the buffer asks for another one. *)
Definition neverTerminates (buf : list byte) : Prop :=
  Forall continues buf.

(** The first ten bytes all ask for another one, and there is one. *)
Definition chainExceedsTen (buf : list byte) : Prop :=
  (MaxVarintLen64 < List.length buf)%nat
  /\ Forall continues (firstn MaxVarintLen64 buf).

(** What [readPong] makes of the bytes after the two header varints. *)
Definition bodyResult {JSONValue : Type}
  (json_Unmarshal : list byte -> PingResponse JSONValue
                    -> PingResponse JSONValue * option error)
  (body : list byte)
  : outcome (option (PingResponse JSONValue) * option error) :=
  match json_Unmarshal body zeroPingResponse with
  | (_, Some _) => Returned (None, Some (errorsNew "could not read pong json"))
  | (res, None) => Returned (Some res, None)
  end.

(** The two's complement big-endian bytes of a signed 16-bit value. *)
Definition int16BigEndian (v : Z) : list byte :=
  [(v mod 2 ^ 16) / 2 ^ 8; v mod 2 ^ 8].

(** The handshake packet as the wire protocol lays it out:
    [[varint:len][varint:0x00][byte:0x2F][varint:hostLen][bytes:host]
     [int16:port][varint:0x01]]. *)
Definition handshakeWireFormat (host : string) (port : Z) : list byte :=
  let payload :=
    [0x00] ++ [0x2F] ++ encodeVarint (strlen host) ++ bytesOf host
    ++ int16BigEndian (int16 port) ++ [0x01] in
  encodeVarint (len payload) ++ payload.

(** A value that fits a Go [byte]. *)
Definition isByte (b : Z) : Prop := 0 <= b < 256.

(** The number a string of decimal digits denotes, most significant
    digit first, continuing from [n]. *)
Fixpoint digitsValue (d : Decimal.uint) (n : Z) : Z :=
  match d with
  | Decimal.Nil => n
  | Decimal.D0 l => digitsValue l (n * 10 + 0)
  | Decimal.D1 l => digitsValue l (n * 10 + 1)
  | Decimal.D2 l => digitsValue l (n * 10 + 2)
  | Decimal.D3 l => digitsValue l (n * 10 + 3)
  | Decimal.D4 l => digitsValue l (n * 10 + 4)
  | Decimal.D5 l => digitsValue l (n * 10 + 5)
  | Decimal.D6 l => digitsValue l (n * 10 + 6)
  | Decimal.D7 l => digitsValue l (n * 10 + 7)
  | Decimal.D8 l => digitsValue l (n * 10 + 8)
  | Decimal.D9 l => digitsValue l (n * 10 + 9)
  end.

(** An address that holds no colon and no square bracket: a host name
    or an IPv4 address. *)
Definition plainAddress (address : string) : Prop :=
  IndexByteString address ":" = -1
  /\ IndexByteString address "[" = -1
  /\ IndexByteString address "]" = -1.

(** The value fits Go's 64-bit [int]. *)
Definition isInt (z : Z) : Prop := - 2 ^ 63 <= z < 2 ^ 63.

(** The payload of the handshake packet, before it is framed. *)
Definition handshakePayload (host : string) (port : Z) : list byte :=
  [0x00; 0x2F]
  ++ encodeVarint (strlen host) ++ bytesOf host
  ++ int16BigEndian (int16 port) ++ [0x01].



(** ** Properties of the varint codec *)

Section VarintFacts.

Lemma lor_shiftl_add (a b s : Z) :
  0 <= s -> 0 <= a < 2 ^ s -> 0 <= b ->
  Z.lor a (Z.shiftl b s) = a + b * 2 ^ s.
Proof.
  intros Hs Ha Hb.
  assert (Hland : Z.land a (Z.shiftl b s) = 0).
  { apply Z.bits_inj'. intros n Hn.
    rewrite Z.land_spec, Z.bits_0.
    destruct (Z_lt_le_dec n s) as [Hlt | Hge].
    - rewrite Z.shiftl_spec_low by lia. apply andb_false_r.
    - destruct (Z.eq_dec a 0) as [-> | Hnz].
      + rewrite Z.bits_0. reflexivity.
      + rewrite (Z.bits_above_log2 a n); [reflexivity | lia |].
        apply Z.log2_lt_pow2; [lia |].
        apply Z.lt_le_trans with (2 ^ s); [lia |].
        apply Z.pow_le_mono_r; lia. }
  rewrite <- Z.lxor_lor by exact Hland.
  rewrite <- Z.add_nocarry_lxor by exact Hland.
  rewrite Z.shiftl_mul_pow2 by lia. reflexivity.
Qed.

Lemma lor_mul_pow2_add (a b s : Z) :
  0 <= s -> 0 <= a < 2 ^ s -> 0 <= b ->
  Z.lor a (b * 2 ^ s) = a + b * 2 ^ s.
Proof.
  intros. rewrite <- lor_shiftl_add by assumption.
  rewrite Z.shiftl_mul_pow2 by assumption. reflexivity.
Qed.

Lemma cont_byte (y : Z) :
  0 <= y ->
  Z.lor 0x80 (uint8 (Z.land y 0x7F)) = 128 + y mod 128.
Proof.
  intros Hy. unfold uint8.
  change 0x7F with (Z.ones 7). rewrite Z.land_ones by lia.
  change (2 ^ 7) with 128.
  assert (0 <= y mod 128 < 128) by (apply Z.mod_pos_bound; lia).
  rewrite (Z.mod_small (y mod 128) (2 ^ 8)) by (change (2 ^ 8) with 256; lia).
  rewrite Z.lor_comm.
  pose proof (lor_shiftl_add (y mod 128) 1 7) as E.
  change (Z.shiftl 1 7) with 128 in E. change (2 ^ 7) with 128 in E.
  rewrite E; lia.
Qed.

Lemma cont_byte_low (y : Z) :
  0 <= y -> Z.land (128 + y mod 128) 0x7F = y mod 128.
Proof.
  intros Hy. change 0x7F with (Z.ones 7). rewrite Z.land_ones by lia.
  change (2 ^ 7) with 128.
  rewrite <- Zplus_mod_idemp_l. change (128 mod 128) with 0.
  rewrite Z.add_0_l. apply Z.mod_mod. lia.
Qed.

(** The encoder never runs out of buffer: a value of [7 * room] bits
    fits in [room] cells. *)
Lemma encodeVarint_loop_fits (room : nat) :
  forall x, 0 <= x < 2 ^ (7 * Z.of_nat (S room)) ->
  exists bs, encodeVarint_loop (S room) x = Some bs
             /\ (1 <= List.length bs <= S room)%nat.
Proof.
  induction room as [| room IH]; intros x Hx.
  - change (2 ^ (7 * Z.of_nat 1)) with 128 in Hx.
    exists [uint8 x]. cbn [encodeVarint_loop].
    destruct (Z.ltb_spec 127 x); [lia |]. split; [reflexivity | cbn; lia].
  - cbn [encodeVarint_loop].
    destruct (Z.ltb_spec 127 x) as [Hbig | Hsmall].
    + destruct (IH (Z.shiftr x 7)) as (bs & E & Hl).
      { rewrite Z.shiftr_div_pow2 by lia. change (2 ^ 7) with 128.
        split; [apply Z.div_pos; lia |].
        apply Z.div_lt_upper_bound; [lia |].
        replace (7 * Z.of_nat (S (S room))) with (7 + 7 * Z.of_nat (S room)) in Hx by lia.
        rewrite Z.pow_add_r in Hx by lia. change (2 ^ 7) with 128 in Hx. lia. }
      cbn [encodeVarint_loop] in E. rewrite E.
      eexists. split; [reflexivity | cbn [List.length]; lia].
    + eexists. split; [reflexivity | cbn [List.length]; lia].
Qed.

Lemma encodeVarint_in_bounds (x : Z) :
  exists bs, encodeVarint_loop MaxVarintLen64 (uint64 x) = Some bs
             /\ encodeVarint x = bs
             /\ (1 <= List.length bs <= 10)%nat.
Proof.
  destruct (encodeVarint_loop_fits 9 (uint64 x)) as (bs & E & Hl).
  { unfold uint64.
    assert (0 <= x mod 2 ^ 64 < 2 ^ 64) by (apply Z.mod_pos_bound; lia).
    assert (2 ^ 64 <= 2 ^ (7 * Z.of_nat 10)) by (apply Z.pow_le_mono_r; lia).
    lia. }
  exists bs. unfold encodeVarint, MaxVarintLen64. rewrite E. auto.
Qed.

(** Decoding what the encoder loop wrote, from any loop state that the
    decoder can be in after [i] continuation bytes. *)
Lemma Uvarint_loop_encode (room : nat) :
  forall y i acc s bs rest,
    encodeVarint_loop room y = Some bs ->
    (i + room <= 10)%nat ->
    s = 7 * Z.of_nat i ->
    0 <= y -> y * 2 ^ s < 2 ^ 64 ->
    0 <= acc < 2 ^ s ->
    Uvarint_loop (bs ++ rest) i acc s
    = (acc + y * 2 ^ s, Z.of_nat i + len bs).
Proof.
  induction room as [| room IH]; intros y i acc s bs rest E Hi Hs Hy Hfit Hacc.
  - discriminate E.
  - cbn [encodeVarint_loop] in E.
    assert (Hs0 : 0 <= s) by lia.
    assert (Hp : 0 < 2 ^ s) by (apply Z.pow_pos_nonneg; lia).
    destruct (Z.ltb_spec 127 y) as [Hbig | Hsmall].
    + destruct (encodeVarint_loop room (Z.shiftr y 7)) as [bs' |] eqn:E';
        [| discriminate E].
      assert (Ebs : bs = Z.lor 0x80 (uint8 (Z.land y 0x7F)) :: bs')
        by congruence.
      subst bs. clear E. rewrite cont_byte by exact Hy.
      cbn [app Uvarint_loop].
      destruct (Nat.eqb_spec i MaxVarintLen64) as [Hten | _];
        [unfold MaxVarintLen64 in Hten; lia |].
      assert (Hm : 0 <= y mod 128 < 128) by (apply Z.mod_pos_bound; lia).
      destruct (Z.ltb_spec (128 + y mod 128) 128) as [Hlt | _]; [lia |].
      rewrite cont_byte_low by exact Hy.
      assert (Hdiv : y = 128 * (y / 128) + y mod 128) by (apply Z.div_mod; lia).
      assert (Hq : 0 <= y / 128) by (apply Z.div_pos; lia).
      assert (Hps : 2 ^ (s + 7) = 128 * 2 ^ s).
      { rewrite Z.pow_add_r by lia. change (2 ^ 7) with 128. lia. }
      assert (Hlow : uint64 (Z.shiftl (y mod 128) s) = y mod 128 * 2 ^ s).
      { unfold uint64. rewrite Z.shiftl_mul_pow2 by lia.
        apply Z.mod_small. nia. }
      rewrite Hlow.
      rewrite lor_mul_pow2_add by lia.
      rewrite (IH (Z.shiftr y 7) (S i) _ (s + 7) bs' rest E').
      * rewrite Z.shiftr_div_pow2 by lia. change (2 ^ 7) with 128.
        unfold len. cbn [List.length]. f_equal; [nia | lia].
      * lia.
      * lia.
      * rewrite Z.shiftr_div_pow2 by lia. exact Hq.
      * rewrite Z.shiftr_div_pow2 by lia. change (2 ^ 7) with 128. nia.
      * nia.
    + assert (Ebs : bs = [uint8 y]) by congruence.
      subst bs. clear E.
      assert (Hu : uint8 y = y) by (unfold uint8; apply Z.mod_small; change (2 ^ 8) with 256; lia).
      rewrite Hu. cbn [app Uvarint_loop].
      destruct (Nat.eqb_spec i MaxVarintLen64) as [Hten | _];
        [unfold MaxVarintLen64 in Hten; lia |].
      destruct (Z.ltb_spec y 128) as [_ | Hge]; [| lia].
      assert (Hguard : ((i =? MaxVarintLen64 - 1)%nat && (1 <? y))%bool = false).
      { destruct (Nat.eqb_spec i (MaxVarintLen64 - 1)) as [Hnine | _];
          [| reflexivity].
        cbn [andb]. apply Z.ltb_ge.
        unfold MaxVarintLen64 in Hnine. cbn in Hnine. subst i.
        change (7 * Z.of_nat 9) with 63 in Hs. subst s.
        change (2 ^ 64) with (2 * 2 ^ 63) in Hfit. nia. }
      rewrite Hguard.
      assert (Hlow : uint64 (Z.shiftl y s) = y * 2 ^ s).
      { unfold uint64. rewrite Z.shiftl_mul_pow2 by lia.
        apply Z.mod_small. nia. }
      rewrite Hlow.
      rewrite lor_mul_pow2_add by lia.
      unfold len. cbn [List.length]. f_equal.
Qed.

(** Decoding an encoded value that is followed by more bytes. *)
Lemma Uvarint_encodeVarint_app (x : Z) (rest : list byte) :
  0 <= x < 2 ^ 64 ->
  Uvarint (encodeVarint x ++ rest) = (x, len (encodeVarint x)).
Proof.
  intros Hx.
  destruct (encodeVarint_in_bounds x) as (bs & E & -> & _).
  unfold uint64 in E. rewrite Z.mod_small in E by exact Hx.
  unfold Uvarint.
  rewrite (Uvarint_loop_encode MaxVarintLen64 x 0 0 0 bs rest E).
  - f_equal. change (2 ^ 0) with 1. lia.
  - unfold MaxVarintLen64. lia.
  - reflexivity.
  - lia.
  - change (2 ^ 0) with 1. lia.
  - change (2 ^ 0) with 1. lia.
Qed.

Lemma varintOf_encodeVarint (x : Z) :
  0 <= x < 2 ^ 64 -> varintOf (encodeVarint x) x.
Proof.
  intros Hx. split.
  - destruct (encodeVarint_in_bounds x) as (bs & _ & -> & Hl).
    destruct bs; [cbn in Hl; lia | discriminate].
  - rewrite <- (app_nil_r (encodeVarint x)) at 1.
    apply Uvarint_encodeVarint_app. exact Hx.
Qed.

(** A successful decode does not look past the bytes it consumed. *)
Lemma Uvarint_loop_app (buf rest : list byte) :
  forall i x s v n,
    Uvarint_loop buf i x s = (v, n) -> 0 < n ->
    Uvarint_loop (buf ++ rest) i x s = (v, n).
Proof.
  induction buf as [| b buf IH]; intros i x s v n E Hn.
  - cbn in E. injection E as _ E. lia.
  - cbn [app Uvarint_loop] in *.
    destruct (i =? MaxVarintLen64)%nat.
    + injection E as _ E. lia.
    + destruct (b <? 128).
      * exact E.
      * apply IH; assumption.
Qed.

Lemma Uvarint_app (v rest : list byte) (x : Z) :
  varintOf v x -> Uvarint (v ++ rest) = (x, len v).
Proof.
  intros [Hne E]. apply Uvarint_loop_app; [exact E |].
  destruct v; [contradiction | unfold len; cbn [List.length]; lia].
Qed.

(** The stream reader agrees with the buffer decoder on a complete
    varint and leaves the bytes after it. *)
Lemma ReadUvarint_loop_complete (buf rest : list byte) :
  forall i x s v,
    buf <> [] -> (i <= MaxVarintLen64)%nat ->
    Uvarint_loop buf i x s = (v, Z.of_nat i + len buf) ->
    ReadUvarint_loop (buf ++ rest) i x s = (v, None, rest).
Proof.
  unfold len.
  induction buf as [| b buf IH]; intros i x s v Hne Hi E; [contradiction |].
  cbn [app Uvarint_loop ReadUvarint_loop List.length] in *.
  destruct (Nat.eqb_spec i MaxVarintLen64) as [Hten | Hlt].
  - injection E as _ E. lia.
  - destruct (Nat.leb_spec MaxVarintLen64 i) as [Hge | _]; [lia |].
    destruct (b <? 128).
    + destruct ((i =? MaxVarintLen64 - 1)%nat && (1 <? b))%bool.
      * injection E as _ E. lia.
      * injection E as Ev En.
        assert (buf = []) by (destruct buf; [reflexivity | cbn in En; lia]).
        subst buf. cbn [app]. rewrite Ev. reflexivity.
    + destruct buf as [| b' buf'].
      * cbn in E. injection E as _ E. lia.
      * apply IH; [discriminate | lia |].
        rewrite E. f_equal. cbn [List.length]. lia.
Qed.

Lemma ReadUvarint_app (v rest : list byte) (x : Z) :
  varintOf v x -> ReadUvarint (v ++ rest) = (x, None, rest).
Proof.
  intros [Hne E]. apply ReadUvarint_loop_complete;
    [exact Hne | unfold MaxVarintLen64; lia | exact E].
Qed.

(** A chain of continuation bytes that reaches the end of the buffer. *)
Lemma Uvarint_loop_neverTerminates (buf : list byte) :
  forall i x s, neverTerminates buf ->
    exists n, Uvarint_loop buf i x s = (0, n) /\ n <= 0.
Proof.
  induction buf as [| b buf IH]; intros i x s H.
  - exists 0. split; [reflexivity | lia].
  - inversion H as [| ? ? Hb Hbuf]; subst. unfold continues in Hb.
    cbn [Uvarint_loop].
    destruct (i =? MaxVarintLen64)%nat.
    + eexists. split; [reflexivity | lia].
    + destruct (Z.ltb_spec b 128) as [Hlt | _]; [lia |].
      apply IH. exact Hbuf.
Qed.

(** A chain of continuation bytes that is longer than ten bytes. *)
Lemma Uvarint_loop_chainExceedsTen (buf : list byte) :
  forall i x s,
    (i <= MaxVarintLen64)%nat ->
    (MaxVarintLen64 - i < List.length buf)%nat ->
    Forall continues (firstn (MaxVarintLen64 - i) buf) ->
    Uvarint_loop buf i x s = (0, -11).
Proof.
  unfold MaxVarintLen64.
  induction buf as [| b buf IH]; intros i x s Hi Hlen Hall.
  - cbn in Hlen. lia.
  - cbn [Uvarint_loop]. unfold MaxVarintLen64.
    destruct (Nat.eqb_spec i 10) as [-> | Hne]; [reflexivity |].
    destruct (10 - i)%nat as [| k] eqn:Ek; [lia |].
    cbn [firstn] in Hall. inversion Hall as [| ? ? Hb Hrest]; subst.
    unfold continues in Hb.
    destruct (Z.ltb_spec b 128) as [Hlt | _]; [lia |].
    apply IH.
    + lia.
    + cbn [List.length] in Hlen. lia.
    + replace (10 - S i)%nat with k by lia. exact Hrest.
Qed.

Lemma Uvarint_unterminated (buf : list byte) :
  neverTerminates buf \/ chainExceedsTen buf ->
  exists n, Uvarint buf = (0, n) /\ n <= 0.
Proof.
  intros [H | [Hlen Hall]].
  - apply Uvarint_loop_neverTerminates. exact H.
  - exists (-11). split; [| lia].
    apply Uvarint_loop_chainExceedsTen;
      [unfold MaxVarintLen64; lia | |]; rewrite Nat.sub_0_r; assumption.
Qed.

(** The stream reader on a chain that never terminates. *)
Lemma ReadUvarint_loop_neverTerminates (r : list byte) :
  forall i x s, neverTerminates r ->
    exists v e r', ReadUvarint_loop r i x s = (v, Some e, r').
Proof.
  induction r as [| b r IH]; intros i x s H.
  - cbn [ReadUvarint_loop]. destruct (MaxVarintLen64 <=? i)%nat; eauto.
  - inversion H as [| ? ? Hb Hr]; subst. unfold continues in Hb.
    cbn [ReadUvarint_loop].
    destruct (MaxVarintLen64 <=? i)%nat; [eauto |].
    destruct (Z.ltb_spec b 128) as [Hlt | _]; [lia |].
    apply IH. exact Hr.
Qed.

(** The stream reader on a chain that is longer than ten bytes. *)
Lemma ReadUvarint_loop_chainExceedsTen (r : list byte) :
  forall i x s,
    (MaxVarintLen64 - i <= List.length r)%nat ->
    Forall continues (firstn (MaxVarintLen64 - i) r) ->
    exists v r', ReadUvarint_loop r i x s = (v, Some errOverflow, r').
Proof.
  unfold MaxVarintLen64.
  induction r as [| b r IH]; intros i x s Hlen Hall.
  - cbn [ReadUvarint_loop List.length] in *. unfold MaxVarintLen64.
    destruct (Nat.leb_spec 10 i); [eauto | lia].
  - cbn [ReadUvarint_loop]. unfold MaxVarintLen64.
    destruct (Nat.leb_spec 10 i) as [Hge | Hlt]; [eauto |].
    destruct (10 - i)%nat as [| k] eqn:Ek; [lia |].
    cbn [firstn] in Hall. inversion Hall as [| ? ? Hb Hrest]; subst.
    unfold continues in Hb.
    destruct (Z.ltb_spec b 128) as [Hlt' | _]; [lia |].
    apply IH.
    + cbn [List.length] in Hlen. lia.
    + replace (10 - S i)%nat with k by lia. exact Hrest.
Qed.

Lemma ReadUvarint_unterminated (r : list byte) :
  neverTerminates r \/ chainExceedsTen r ->
  exists v e r', ReadUvarint r = (v, Some e, r').
Proof.
  intros [H | [Hlen Hall]].
  - apply ReadUvarint_loop_neverTerminates. exact H.
  - destruct (ReadUvarint_loop_chainExceedsTen r 0 0 0) as (v & r' & E).
    + rewrite Nat.sub_0_r. lia.
    + rewrite Nat.sub_0_r. exact Hall.
    + eauto.
Qed.

End VarintFacts.

(** ** Properties of the framer and of the response decoder *)

Lemma len_app {A : Type} (l1 l2 : list A) : len (l1 ++ l2) = len l1 + len l2.
Proof. unfold len. rewrite length_app. lia. Qed.

Lemma len_nonneg {A : Type} (l : list A) : 0 <= len l.
Proof. unfold len. lia. Qed.

Lemma skipn_len_app {A : Type} (l1 l2 : list A) :
  skipn (Z.to_nat (len l1)) (l1 ++ l2) = l2.
Proof.
  unfold len. rewrite Nat2Z.id, skipn_app, skipn_all, Nat.sub_diag.
  reflexivity.
Qed.

Lemma firstn_len_app {A : Type} (l1 l2 : list A) :
  firstn (Z.to_nat (len l1)) (l1 ++ l2) = l1.
Proof.
  unfold len. rewrite Nat2Z.id, firstn_app, firstn_all, Nat.sub_diag.
  cbn [firstn]. apply app_nil_r.
Qed.

Lemma ReadFull_exact (pl trailing : list byte) :
  ReadFull (pl ++ trailing) (len pl) = (pl, None, trailing).
Proof.
  unfold ReadFull. rewrite len_app.
  destruct (Z.leb_spec (len pl) (len pl + len trailing)) as [_ | Hlt].
  - rewrite firstn_len_app, skipn_len_app. reflexivity.
  - pose proof (len_nonneg trailing). lia.
Qed.

Lemma ReadFull_short (r : list byte) (n : Z) :
  len r < n -> exists pl e r', ReadFull r n = (pl, Some e, r').
Proof.
  intros H. unfold ReadFull.
  destruct (Z.leb_spec n (len r)); [lia | eauto].
Qed.

Lemma encodeVarint_uint64 (x : Z) : encodeVarint (uint64 x) = encodeVarint x.
Proof.
  unfold encodeVarint, uint64. rewrite Z.mod_mod by lia. reflexivity.
Qed.

Lemma makePacket_eq (pl : Buffer) :
  makePacket pl = encodeVarint (len pl) ++ pl.
Proof.
  unfold makePacket, Write, Bytes. cbn [app].
  rewrite encodeVarint_uint64. reflexivity.
Qed.

Section DecoderFacts.

Context {JSONValue : Type}.
Variable json_Unmarshal :
  list byte -> PingResponse JSONValue -> PingResponse JSONValue * option error.
Variable maxAlloc : Z.

(** A stream that starts with a complete length header. *)
Lemma readPong_header (hdr r : list byte) (nl : Z) :
  varintOf hdr nl ->
  readPong json_Unmarshal maxAlloc (hdr ++ r)
  = if maxAlloc <? nl
    then Panicked (RuntimeError "makeslice: len out of range")
    else
      let '(pl, err, _) := ReadFull r nl in
      match err with
      | Some _ =>
          Returned (None, Some (errorsNew
            "could not read length given by length header"))
      | None =>
          let '(_, n) := Uvarint pl in
          if n <=? 0
          then Returned (None, Some (errorsNew "could not read packet id"))
          else
            let '(_, n2) := Uvarint (skipn (Z.to_nat n) pl) in
            if n2 <=? 0
            then Returned (None,
                           Some (errorsNew "could not read string varint"))
            else bodyResult json_Unmarshal (skipn (Z.to_nat (n + n2)) pl)
      end.
Proof.
  intros Hh. unfold readPong, bodyResult.
  rewrite (ReadUvarint_app hdr r nl Hh). reflexivity.
Qed.

(** A framed payload reaches the header decoding whole. *)
Lemma readPong_framed (hdr pl trailing : list byte) :
  varintOf hdr (len pl) -> len pl <= maxAlloc ->
  readPong json_Unmarshal maxAlloc (hdr ++ pl ++ trailing)
  = let '(_, n) := Uvarint pl in
    if n <=? 0
    then Returned (None, Some (errorsNew "could not read packet id"))
    else
      let '(_, n2) := Uvarint (skipn (Z.to_nat n) pl) in
      if n2 <=? 0
      then Returned (None, Some (errorsNew "could not read string varint"))
      else bodyResult json_Unmarshal (skipn (Z.to_nat (n + n2)) pl).
Proof.
  intros Hh Hmax. rewrite (readPong_header _ _ _ Hh).
  destruct (Z.ltb_spec maxAlloc (len pl)) as [Hbig | _]; [lia |].
  rewrite ReadFull_exact. reflexivity.
Qed.

Lemma varintOf_len_pos (v : list byte) (x : Z) : varintOf v x -> 0 < len v.
Proof.
  intros [Hne _]. destruct v; [contradiction |].
  unfold len. cbn [List.length]. lia.
Qed.

(** A framed payload with two complete header varints: the result is
    that of the JSON decoder on the bytes after them. *)
Lemma readPong_body (hdr v1 v2 body trailing : list byte) (id M : Z) :
  varintOf hdr (len (v1 ++ v2 ++ body)) ->
  len (v1 ++ v2 ++ body) <= maxAlloc ->
  varintOf v1 id -> varintOf v2 M ->
  readPong json_Unmarshal maxAlloc (hdr ++ (v1 ++ v2 ++ body) ++ trailing) = bodyResult json_Unmarshal body.
Proof.
  intros Hh Hmax H1 H2.
  rewrite (readPong_framed _ _ _ Hh Hmax).
  rewrite (Uvarint_app v1 (v2 ++ body) id H1).
  pose proof (varintOf_len_pos _ _ H1) as Hp1.
  pose proof (varintOf_len_pos _ _ H2) as Hp2.
  destruct (Z.leb_spec (len v1) 0); [lia |].
  rewrite skipn_len_app.
  rewrite (Uvarint_app v2 body M H2).
  destruct (Z.leb_spec (len v2) 0); [lia |].
  rewrite <- len_app, app_assoc, skipn_len_app. reflexivity.
Qed.

End DecoderFacts.

(** C1. For every unsigned 64-bit integer [x], decoding the bytes that
    [encodeVarint] produces gives back [x] together with the number of
    encoded bytes; the encoding has between 1 and 10 bytes. *)
Theorem encode_decode_roundtrip (x : Z) :
  0 <= x < 2 ^ 64 ->
  Uvarint (encodeVarint x) = (x, len (encodeVarint x))
  /\ 1 <= len (encodeVarint x) <= 10.
Proof.
  intros Hx. split.
  - rewrite <- (app_nil_r (encodeVarint x)) at 1.
    apply Uvarint_encodeVarint_app. exact Hx.
  - destruct (encodeVarint_in_bounds x) as (bs & _ & -> & Hl).
    unfold len. lia.
Qed.

Lemma encode_decode_roundtrip_witness :
  0 <= 18446744073709551615 < 2 ^ 64
  /\ Uvarint (encodeVarint 18446744073709551615)
     = (18446744073709551615, len (encodeVarint 18446744073709551615))
  /\ 1 <= len (encodeVarint 18446744073709551615) <= 10.
Proof.
  split; [lia |].
  apply (encode_decode_roundtrip 18446744073709551615). lia.
Defined.

(** ** The status response decoder *)

(** C3. For a stream made of a length header [N], a payload of [N] bytes
    that starts with the packet-ID varint and the string-length varint,
    and a JSON document that [json.Unmarshal] accepts, [readPong] skips
    exactly the two varints and returns the value decoded from the
    remaining bytes, unchanged. *)
Theorem status_response_decoded {JSONValue : Type}
  (json_Unmarshal : list byte -> PingResponse JSONValue
                    -> PingResponse JSONValue * option error)
  (maxAlloc : Z) (hdr v1 v2 body trailing : list byte) (N id M : Z)
  (res : PingResponse JSONValue) :
  varintOf hdr N -> N = len (v1 ++ v2 ++ body) -> N <= maxAlloc ->
  varintOf v1 id -> varintOf v2 M ->
  json_Unmarshal body zeroPingResponse = (res, None) ->
  skipn (Z.to_nat (len v1 + len v2)) (v1 ++ v2 ++ body) = body
  /\ readPong json_Unmarshal maxAlloc (hdr ++ (v1 ++ v2 ++ body) ++ trailing)
     = Returned (Some res, None).
Proof.
  intros Hh HN Hmax H1 H2 Hjson. subst N. split.
  - rewrite <- len_app, app_assoc. apply skipn_len_app.
  - rewrite (readPong_body json_Unmarshal maxAlloc hdr v1 v2 body trailing
               id M Hh Hmax H1 H2).
    unfold bodyResult. rewrite Hjson. reflexivity.
Qed.

Lemma status_response_decoded_witness :
  readPong emptyObjectUnmarshal (2 ^ 48)
    ([4] ++ ([0] ++ [2] ++ bytesOf "{}") ++ [])
  = Returned (Some zeroPingResponse, None).
Proof.
  apply (status_response_decoded emptyObjectUnmarshal (2 ^ 48)
           [4] [0] [2] (bytesOf "{}") [] 4 0 2 zeroPingResponse).
  - split; [discriminate | reflexivity].
  - reflexivity.
  - vm_compute. discriminate.
  - split; [discriminate | reflexivity].
  - split; [discriminate | reflexivity].
  - reflexivity.
Defined.

(** C9. For a framed payload whose two leading varints decode, the
    result of [readPong] is that of the JSON decoder on the bytes after
    them: the declared string length [M] takes no part in it, so the
    decoding succeeds also when [M] is not the number of those bytes. *)
Theorem declared_length_not_validated {JSONValue : Type}
  (json_Unmarshal : list byte -> PingResponse JSONValue
                    -> PingResponse JSONValue * option error)
  (maxAlloc : Z) (hdr v1 v2 body trailing : list byte) (N id M : Z) :
  varintOf hdr N -> N = len (v1 ++ v2 ++ body) -> N <= maxAlloc ->
  varintOf v1 id -> varintOf v2 M ->
  readPong json_Unmarshal maxAlloc (hdr ++ (v1 ++ v2 ++ body) ++ trailing)
  = bodyResult json_Unmarshal body.
Proof.
  intros Hh HN Hmax H1 H2. subst N.
  exact (readPong_body json_Unmarshal maxAlloc hdr v1 v2 body trailing
           id M Hh Hmax H1 H2).
Qed.

Lemma declared_length_not_validated_witness :
  len (bytesOf "{}") <> 200
  /\ readPong emptyObjectUnmarshal (2 ^ 48)
       ([5] ++ ([0] ++ encodeVarint 200 ++ bytesOf "{}") ++ [])
     = Returned (Some zeroPingResponse, None).
Proof.
  split; [vm_compute; discriminate |].
  apply (declared_length_not_validated emptyObjectUnmarshal (2 ^ 48)
           [5] [0] (encodeVarint 200) (bytesOf "{}") [] 5 0 200).
  - split; [discriminate | reflexivity].
  - reflexivity.
  - vm_compute. discriminate.
  - split; [discriminate | reflexivity].
  - split; [discriminate | reflexivity].
Defined.

(** The sends leave the inbound bytes of the connection alone. *)
Lemma WriteTo_inbound (b : Buffer) (c c' : Conn) (n : Z) (e : option error) :
  WriteTo b c = (c', n, e) -> inbound c' = inbound c.
Proof.
  unfold WriteTo, connWrite.
  destruct (0 <? len (Bytes b)); [| intros E; congruence].
  destruct (len (Bytes b) <=? accepts c); cbn [inbound].
  - destruct (len (Bytes b) =? len (Bytes b)); intros E;
      injection E as <- _ _; reflexivity.
  - intros E; injection E as <- _ _; reflexivity.
Qed.

Lemma sendHandShake_inbound (c c' : Conn) (host : string)
  (r : outcome (option error)) :
  sendHandShake c host = (c', r) -> inbound c' = inbound c.
Proof.
  unfold sendHandShake.
  destruct (SplitHostPort host) as [[h p] [e |]]; [congruence |].
  destruct (Atoi p) as [iPort [e |]]; [congruence |].
  match goal with
  | |- context [WriteTo ?b c] =>
      destruct (WriteTo b c) as [[c1 n] e] eqn:E
  end.
  apply WriteTo_inbound in E.
  destruct e; congruence.
Qed.

Lemma sendStatusRequest_inbound (c c' : Conn) (e : option error) :
  sendStatusRequest c = (c', e) -> inbound c' = inbound c.
Proof.
  unfold sendStatusRequest.
  match goal with
  | |- context [WriteTo ?b c] =>
      destruct (WriteTo b c) as [[c1 n] e1] eqn:E
  end.
  apply WriteTo_inbound in E.
  destruct e1; congruence.
Qed.

(** C8. When the packet is correctly framed and its two header varints
    decode but [json.Unmarshal] rejects the remaining bytes, [readPong]
    returns the error [could not read pong json] and no response, even if
    the JSON decoder had partly filled one; [Ping], once connected and
    with both packets sent, returns that one error and no response. *)
Theorem malformed_body_rejected {JSONValue : Type}
  (json_Unmarshal : list byte -> PingResponse JSONValue
                    -> PingResponse JSONValue * option error)
  (maxAlloc : Z) (DialTimeout : string -> Conn + error)
  (address : string) (port : Z) (conn c1 c2 : Conn)
  (hdr v1 v2 body trailing : list byte) (N id M : Z)
  (partial : PingResponse JSONValue) (e : error) :
  varintOf hdr N -> N = len (v1 ++ v2 ++ body) -> N <= maxAlloc ->
  varintOf v1 id -> varintOf v2 M ->
  json_Unmarshal body zeroPingResponse = (partial, Some e) ->
  DialTimeout (Sprintf_s_d address port) = inl conn ->
  inbound conn = hdr ++ (v1 ++ v2 ++ body) ++ trailing ->
  sendHandShake conn (Sprintf_s_d address port) = (c1, Returned None) ->
  sendStatusRequest c1 = (c2, None) ->
  readPong json_Unmarshal maxAlloc (inbound conn)
  = Returned (None, Some (errorsNew "could not read pong json"))
  /\ Ping json_Unmarshal maxAlloc DialTimeout address port
     = Returned (None, Some (errorsNew "could not read pong json")).
Proof.
  intros Hh HN Hmax H1 H2 Hjson Hdial Hin Hhs Hsr. subst N.
  assert (Hread : readPong json_Unmarshal maxAlloc (inbound conn)
                  = Returned (None, Some (errorsNew "could not read pong json"))).
  { rewrite Hin.
    rewrite (readPong_body json_Unmarshal maxAlloc hdr v1 v2 body trailing
               id M Hh Hmax H1 H2).
    unfold bodyResult. rewrite Hjson. reflexivity. }
  split; [exact Hread |].
  unfold Ping. rewrite Hdial, Hhs, Hsr.
  rewrite (sendStatusRequest_inbound _ _ _ Hsr).
  rewrite (sendHandShake_inbound _ _ _ _ Hhs).
  rewrite Hread. reflexivity.
Qed.

Lemma malformed_body_rejected_witness :
  Ping emptyObjectUnmarshal (2 ^ 48)
    (fun _ => inl (mkConn [] 1000 ([4] ++ ([0] ++ [2] ++ bytesOf "{{") ++ [])))
    "example.com" 25565
  = Returned (None, Some (errorsNew "could not read pong json")).
Proof.
  eapply (malformed_body_rejected emptyObjectUnmarshal (2 ^ 48)
            (fun _ => inl (mkConn [] 1000
                             ([4] ++ ([0] ++ [2] ++ bytesOf "{{") ++ [])))
            "example.com" 25565
            (mkConn [] 1000 ([4] ++ ([0] ++ [2] ++ bytesOf "{{") ++ []))
            _ _ [4] [0] [2] (bytesOf "{{") [] 4 0 2 zeroPingResponse
            (SyntaxError "invalid character")).
  - split; [discriminate | reflexivity].
  - reflexivity.
  - vm_compute. discriminate.
  - split; [discriminate | reflexivity].
  - split; [discriminate | reflexivity].
  - reflexivity.
  - reflexivity.
  - reflexivity.
  - vm_compute. reflexivity.
  - vm_compute. reflexivity.
Defined.

(** C7. A buffer whose continuation bits run to its end, or whose chain
    is longer than ten bytes, makes [binary.Uvarint] report a failure (a
    count that is not positive, with value 0); the decoding terminates.
    In [readPong] this is an error of the header: [could not read packet
    id] for the first varint, [could not read string varint] for the
    second, [could not read length] for the length header. *)
Theorem unterminated_varint_rejected {JSONValue : Type}
  (json_Unmarshal : list byte -> PingResponse JSONValue
                    -> PingResponse JSONValue * option error)
  (maxAlloc : Z) (buf hdr1 hdr2 v1 trailing : list byte) (id : Z) :
  neverTerminates buf \/ chainExceedsTen buf ->
  varintOf hdr1 (len buf) ->
  varintOf v1 id -> varintOf hdr2 (len (v1 ++ buf)) ->
  len (v1 ++ buf) <= maxAlloc ->
  (exists n, Uvarint buf = (0, n) /\ n <= 0)
  /\ readPong json_Unmarshal maxAlloc (hdr1 ++ buf ++ trailing)
     = Returned (None, Some (errorsNew "could not read packet id"))
  /\ readPong json_Unmarshal maxAlloc (hdr2 ++ (v1 ++ buf) ++ trailing)
     = Returned (None, Some (errorsNew "could not read string varint"))
  /\ readPong json_Unmarshal maxAlloc buf
     = Returned (None, Some (errorsNew "could not read length")).
Proof.
  intros Hbad Hh1 H1 Hh2 Hmax.
  destruct (Uvarint_unterminated buf Hbad) as (n & En & Hn).
  pose proof (varintOf_len_pos _ _ H1) as Hp1.
  assert (Hmax1 : len buf <= maxAlloc) by (rewrite len_app in Hmax; lia).
  split; [eauto |]. split; [| split].
  - rewrite (readPong_framed json_Unmarshal maxAlloc _ _ _ Hh1 Hmax1).
    rewrite En. destruct (Z.leb_spec n 0); [reflexivity | lia].
  - rewrite (readPong_framed json_Unmarshal maxAlloc _ _ _ Hh2 Hmax).
    rewrite (Uvarint_app v1 buf id H1).
    destruct (Z.leb_spec (len v1) 0); [lia |].
    rewrite skipn_len_app, En.
    destruct (Z.leb_spec n 0); [reflexivity | lia].
  - destruct (ReadUvarint_unterminated buf Hbad) as (v & e & r' & E).
    unfold readPong. rewrite E. reflexivity.
Qed.

Lemma unterminated_varint_rejected_witness :
  (exists n, Uvarint [0x80; 0xFF] = (0, n) /\ n <= 0)
  /\ readPong emptyObjectUnmarshal (2 ^ 48) ([2] ++ [0x80; 0xFF] ++ [])
     = Returned (None, Some (errorsNew "could not read packet id"))
  /\ readPong emptyObjectUnmarshal (2 ^ 48) ([3] ++ ([0] ++ [0x80; 0xFF]) ++ [])
     = Returned (None, Some (errorsNew "could not read string varint"))
  /\ readPong emptyObjectUnmarshal (2 ^ 48) [0x80; 0xFF]
     = Returned (None, Some (errorsNew "could not read length")).
Proof.
  apply (unterminated_varint_rejected emptyObjectUnmarshal (2 ^ 48)
           [0x80; 0xFF] [2] [3] [0] [] 0).
  - left. repeat constructor; unfold continues; lia.
  - split; [discriminate | reflexivity].
  - split; [discriminate | reflexivity].
  - split; [discriminate | reflexivity].
  - vm_compute. discriminate.
Defined.

(** C6, as the code has it.  [readPong] puts no upper bound on the length
    header: for a header that decodes to [nl], within what the allocator
    accepts, it allocates [nl] bytes and reads; when fewer than [nl]
    bytes follow, it fails with the short-read error [could not read
    length given by length header]. *)
Theorem length_header_not_bounded {JSONValue : Type}
  (json_Unmarshal : list byte -> PingResponse JSONValue
                    -> PingResponse JSONValue * option error)
  (maxAlloc : Z) (hdr rest : list byte) (nl : Z) :
  varintOf hdr nl -> nl <= maxAlloc -> len rest < nl ->
  readPong json_Unmarshal maxAlloc (hdr ++ rest)
  = Returned (None, Some (errorsNew
      "could not read length given by length header")).
Proof.
  intros Hh Hmax Hshort.
  rewrite (readPong_header json_Unmarshal maxAlloc _ _ _ Hh).
  destruct (Z.ltb_spec maxAlloc nl); [lia |].
  destruct (ReadFull_short rest nl Hshort) as (pl & e & r' & E).
  rewrite E. reflexivity.
Qed.

Lemma length_header_not_bounded_witness :
  readPong emptyObjectUnmarshal (2 ^ 48)
    ([0xFF; 0xFF; 0xFF; 0xFF; 0x07] ++ [0; 2; 123; 125])
  = Returned (None, Some (errorsNew
      "could not read length given by length header")).
Proof.
  apply (length_header_not_bounded emptyObjectUnmarshal (2 ^ 48)
           [0xFF; 0xFF; 0xFF; 0xFF; 0x07] [0; 2; 123; 125] 2147483647).
  - split; [discriminate | reflexivity].
  - vm_compute. discriminate.
  - reflexivity.
Defined.

(** C6 as stated fails.  A header that declares [2^64 - 1] bytes is not
    answered with an error: the allocation is attempted and panics.  A
    header that declares [2^31 - 1] bytes is accepted, and the error is
    the one of a stream that ends early. *)
Lemma large_length_header_counterexample :
  ReadUvarint [0xFF; 0xFF; 0xFF; 0xFF; 0xFF; 0xFF; 0xFF; 0xFF; 0xFF; 0x01]
  = (2 ^ 64 - 1, None, [])
  /\ readPong emptyObjectUnmarshal (2 ^ 48)
       [0xFF; 0xFF; 0xFF; 0xFF; 0xFF; 0xFF; 0xFF; 0xFF; 0xFF; 0x01]
     = Panicked (RuntimeError "makeslice: len out of range")
  /\ readPong emptyObjectUnmarshal (2 ^ 48)
       [0xFF; 0xFF; 0xFF; 0xFF; 0x07]
     = Returned (None, Some (errorsNew
         "could not read length given by length header")).
Proof.
  repeat split; vm_compute; reflexivity.
Qed.

(** ** The packet framer and the handshake encoder *)

(** C4. For every payload [pl], [makePacket pl] is the varint of the
    length of [pl] followed by [pl]: the prefix is a function of the
    length alone, the payload is copied as it is and can be read back
    after the prefix, and the payload buffer is only read. *)
Theorem makePacket_frames (pl : Buffer) :
  Bytes (makePacket pl) = encodeVarint (len (Bytes pl)) ++ Bytes pl
  /\ skipn (List.length (encodeVarint (len (Bytes pl)))) (Bytes (makePacket pl))
     = Bytes pl
  /\ (exists prefix : Z -> list byte,
        forall q : Buffer, Bytes (makePacket q) = prefix (len q) ++ Bytes q).
Proof.
  unfold Bytes. split; [apply makePacket_eq |]. split.
  - rewrite makePacket_eq, skipn_app, skipn_all, Nat.sub_diag.
    reflexivity.
  - exists encodeVarint. intros q. apply makePacket_eq.
Qed.

Lemma int16_uint16 (p : Z) : uint16 (int16 p) = p mod 2 ^ 16.
Proof.
  unfold uint16, int16.
  rewrite Zminus_mod_idemp_l.
  replace (p + 2 ^ 15 - 2 ^ 15) with p by lia. reflexivity.
Qed.

Ltac numerals :=
  change (2 ^ 16) with 65536 in *; change (2 ^ 15) with 32768 in *;
  change (2 ^ 8) with 256 in *.

Lemma PutUint16_bytes (v : Z) :
  PutUint16 (v mod 2 ^ 16) = [(v mod 2 ^ 16) / 2 ^ 8; v mod 2 ^ 8].
Proof.
  unfold PutUint16, uint8.
  rewrite Z.shiftr_div_pow2 by lia. numerals.
  f_equal; [| f_equal]; Z.div_mod_to_equations; lia.
Qed.

Lemma binaryWrite_int16_bytes (b : Buffer) (p : Z) :
  binaryWrite_int16 b (int16 p) = b ++ int16BigEndian (int16 p).
Proof.
  unfold binaryWrite_int16, Write, int16BigEndian.
  rewrite int16_uint16, PutUint16_bytes.
  unfold int16. numerals.
  do 2 f_equal; [| f_equal]; Z.div_mod_to_equations; lia.
Qed.

Lemma WriteTo_accepted (b : Buffer) (c : Conn) :
  b <> [] -> len b <= accepts c ->
  WriteTo b c
  = (mkConn (sent c ++ b) (accepts c - len b) (inbound c), len b, None).
Proof.
  intros Hne Hacc. unfold WriteTo, connWrite, Bytes.
  destruct (Z.ltb_spec 0 (len b)) as [_ | Hz].
  - destruct (Z.leb_spec (len b) (accepts c)); [| lia].
    rewrite Z.eqb_refl. reflexivity.
  - destruct b; [contradiction | unfold len in Hz; cbn in Hz; lia].
Qed.

Lemma handshake_buffer (host : string) (iPort : Z) :
  makePacket
    (WriteByte
       (binaryWrite_int16
          (WriteString
             (Write (WriteByte (WriteByte [] 0x00) protocolVersion)
                (encodeVarint (uint64 (strlen host))))
             host)
          (int16 iPort))
       0x01)
  = handshakeWireFormat host iPort.
Proof.
  rewrite makePacket_eq, binaryWrite_int16_bytes, encodeVarint_uint64.
  unfold handshakeWireFormat, WriteByte, WriteString, Write, protocolVersion.
  cbn [app]. repeat rewrite <- app_assoc. cbn [app]. reflexivity.
Qed.

Lemma handshakeWireFormat_nonempty (host : string) (iPort : Z) :
  handshakeWireFormat host iPort <> [].
Proof.
  unfold handshakeWireFormat. cbv zeta.
  destruct (encodeVarint _); discriminate.
Qed.

(** C2. When the address splits into [host] and [port] and the port
    parses to [iPort], [sendHandShake] writes to the connection exactly
    the bytes varint(payload length), 0x00, 0x2F, varint(len(host)), the
    bytes of [host], the port as a signed 16-bit big-endian integer and
    0x01, in that order, and returns no error. *)
Theorem handshake_wire_format (conn : Conn) (hostport host port : string)
  (iPort : Z) :
  SplitHostPort hostport = (host, port, None) ->
  Atoi port = (iPort, None) ->
  len (handshakeWireFormat host iPort) <= accepts conn ->
  sendHandShake conn hostport
  = (mkConn (sent conn ++ handshakeWireFormat host iPort)
       (accepts conn - len (handshakeWireFormat host iPort))
       (inbound conn),
     Returned None).
Proof.
  intros Hsplit Hatoi Hacc. unfold sendHandShake.
  rewrite Hsplit. cbv beta iota zeta. rewrite Hatoi. cbv beta iota zeta.
  rewrite handshake_buffer.
  rewrite WriteTo_accepted
    by (auto using handshakeWireFormat_nonempty).
  reflexivity.
Qed.

Lemma handshake_wire_format_witness :
  sendHandShake (mkConn [] 1000 []) "example.com:25565"
  = (mkConn
       ([17] ++ [0x00] ++ [0x2F] ++ [11] ++ bytesOf "example.com"
        ++ [0x63; 0xDD] ++ [0x01])
       982 [],
     Returned None).
Proof.
  apply (handshake_wire_format (mkConn [] 1000 []) "example.com:25565"
           "example.com" "25565" 25565).
  - reflexivity.
  - reflexivity.
  - vm_compute. discriminate.
Defined.


Lemma sendHandShake_parse_fails (conn : Conn) (hostport host port : string)
  (e : error) :
  SplitHostPort hostport = (host, port, None) ->
  snd (Atoi port) = Some e ->
  sendHandShake conn hostport = (conn, Panicked (PanicError e)).
Proof.
  intros Hsplit He. unfold sendHandShake.
  rewrite Hsplit. cbv beta iota zeta.
  destruct (Atoi port) as [iPort err]. cbn [snd] in He. subst err.
  reflexivity.
Qed.

(** The two bytes [binary.Write] appends for [int16(p)], for every [p]. *)
Lemma binaryWrite_int16_modulo (b : Buffer) (p : Z) :
  binaryWrite_int16 b (int16 p)
  = b ++ [Z.land (Z.shiftr p 8) 0xFF; Z.land p 0xFF]
  /\ binaryWrite_int16 b (int16 p)
     = b ++ [(p mod 2 ^ 16) / 2 ^ 8; (p mod 2 ^ 16) mod 2 ^ 8]
  /\ binaryWrite_int16 b (int16 p) = binaryWrite_int16 b (int16 (p mod 2 ^ 16))
  /\ (int16 p <? 0) = (2 ^ 15 <=? p mod 2 ^ 16).
Proof.
  assert (E : forall q, binaryWrite_int16 b (int16 q)
              = b ++ [(q mod 2 ^ 16) / 2 ^ 8; (q mod 2 ^ 16) mod 2 ^ 8]).
  { intros q. unfold binaryWrite_int16, Write.
    rewrite int16_uint16, PutUint16_bytes. numerals.
    do 2 f_equal. f_equal. Z.div_mod_to_equations; lia. }
  split; [| split; [apply E | split]].
  - rewrite E. change 0xFF with (Z.ones 8).
    rewrite !Z.land_ones, Z.shiftr_div_pow2 by lia. numerals.
    do 2 f_equal; [| f_equal]; Z.div_mod_to_equations; lia.
  - rewrite !E. rewrite Z.mod_mod by lia. reflexivity.
  - unfold int16. numerals.
    destruct (Z.ltb_spec ((p + 32768) mod 65536 - 32768) 0);
      destruct (Z.leb_spec 32768 (p mod 65536));
      try reflexivity; exfalso; Z.div_mod_to_equations; lia.
Qed.

Example port_bytes_40000 :
  int16 40000 = -25536
  /\ binaryWrite_int16 [] (int16 40000) = [0x9C; 0x40].
Proof. split; reflexivity. Qed.

Example port_bytes_70000 :
  fst (sendHandShake (mkConn [] 1000 []) "example.com:70000")
  = fst (sendHandShake (mkConn [] 1000 []) "example.com:4464").
Proof. vm_compute. reflexivity. Qed.

Example encodeVarint_vectors :
  encodeVarint 0 = [0x00] /\ encodeVarint 127 = [0x7F]
  /\ encodeVarint 128 = [0x80; 0x01]
  /\ encodeVarint 25565 = [0xDD; 0xC7; 0x01].
Proof. repeat split; reflexivity. Qed.

(** ** Further properties of the varint encoder *)

Lemma encodeVarint_loop_shape (room : nat) :
  forall y bs,
    encodeVarint_loop room y = Some bs -> 0 <= y ->
    exists init last,
      bs = init ++ [last]
      /\ Forall (fun b => 0x80 <= b < 0x100) init
      /\ 0 <= last < 0x80.
Proof.
  induction room as [| room IH]; intros y bs E Hy; [discriminate E |].
  cbn [encodeVarint_loop] in E.
  destruct (Z.ltb_spec 127 y) as [Hbig | Hsmall].
  - destruct (encodeVarint_loop room (Z.shiftr y 7)) as [bs' |] eqn:E';
      [| discriminate E].
    assert (Ebs : bs = Z.lor 0x80 (uint8 (Z.land y 0x7F)) :: bs')
      by congruence.
    subst bs. clear E. rewrite cont_byte by exact Hy.
    destruct (IH _ _ E') as (init & last & -> & Hinit & Hlast).
    { rewrite Z.shiftr_div_pow2 by lia. apply Z.div_pos; lia. }
    exists ((128 + y mod 128) :: init), last.
    split; [reflexivity |]. split; [| exact Hlast].
    constructor; [| exact Hinit].
    assert (0 <= y mod 128 < 128) by (apply Z.mod_pos_bound; lia). lia.
  - assert (Ebs : bs = [uint8 y]) by congruence. subst bs.
    exists [], (uint8 y). split; [reflexivity |]. split; [constructor |].
    unfold uint8. rewrite Z.mod_small by (change (2 ^ 8) with 256; lia). lia.
Qed.

Lemma uint64_range (x : Z) : 0 <= uint64 x < 2 ^ 64.
Proof. unfold uint64. apply Z.mod_pos_bound. lia. Qed.

Lemma encodeVarint_shape (x : Z) :
  exists init last,
    encodeVarint x = init ++ [last]
    /\ Forall (fun b => 0x80 <= b < 0x100) init
    /\ 0 <= last < 0x80.
Proof.
  destruct (encodeVarint_in_bounds x) as (bs & E & -> & _).
  apply (encodeVarint_loop_shape _ _ _ E).
  pose proof (uint64_range x). lia.
Qed.

(** X1. Whatever its argument, [encodeVarint] returns bytes of which all
    but the last carry the continuation bit 0x80 and the last does not;
    every one of them fits a byte. *)
Theorem encodeVarint_continuation_bits (x : Z) :
  exists init last,
    encodeVarint x = init ++ [last]
    /\ Forall (fun b => 0x80 <= b < 0x100) init
    /\ 0 <= last < 0x80.
Proof.
  destruct (encodeVarint_in_bounds x) as (bs & E & -> & _).
  apply (encodeVarint_loop_shape _ _ _ E).
  pose proof (uint64_range x). lia.
Qed.

Lemma encodeVarint_isByte (x : Z) : Forall isByte (encodeVarint x).
Proof.
  destruct (encodeVarint_shape x) as (init & last & -> & Hi & Hl).
  apply Forall_app. split.
  - eapply Forall_impl; [| exact Hi]. unfold isByte. intros; cbn beta in *; lia.
  - constructor; [unfold isByte; lia | constructor].
Qed.

Lemma encodeVarint_loop_length (room : nat) :
  forall y bs (k : nat),
    encodeVarint_loop room y = Some bs -> 0 <= y -> (1 <= k)%nat ->
    ((List.length bs <= k)%nat <-> y < 2 ^ (7 * Z.of_nat k)).
Proof.
  induction room as [| room IH]; intros y bs k E Hy Hk; [discriminate E |].
  cbn [encodeVarint_loop] in E.
  assert (Hpow : 2 ^ (7 * Z.of_nat k) = 128 * 2 ^ (7 * Z.of_nat (k - 1))).
  { replace (7 * Z.of_nat k) with (7 + 7 * Z.of_nat (k - 1)) by lia.
    rewrite Z.pow_add_r by lia. reflexivity. }
  assert (Hpos : 0 < 2 ^ (7 * Z.of_nat (k - 1)))
    by (apply Z.pow_pos_nonneg; lia).
  destruct (Z.ltb_spec 127 y) as [Hbig | Hsmall].
  - destruct (encodeVarint_loop room (Z.shiftr y 7)) as [bs' |] eqn:E';
      [| discriminate E].
    assert (Ebs : bs = Z.lor 0x80 (uint8 (Z.land y 0x7F)) :: bs')
      by congruence.
    subst bs. clear E. cbn [List.length].
    assert (Hq : 0 <= y / 128) by (apply Z.div_pos; lia).
    assert (Hnil : (1 <= List.length bs')%nat).
    { destruct room; [discriminate E' |]. cbn [encodeVarint_loop] in E'.
      destruct (127 <? Z.shiftr y 7);
        [destruct (encodeVarint_loop room _); [| discriminate E'] |];
        injection E' as <-; cbn [List.length]; lia. }
    destruct (Nat.eq_dec k 1) as [-> | Hk1].
    + change (2 ^ (7 * Z.of_nat 1)) with 128. split; intros; lia.
    + rewrite Z.shiftr_div_pow2 in E' by lia. change (2 ^ 7) with 128 in E'.
      specialize (IH (y / 128) bs' (k - 1)%nat E' Hq ltac:(lia)).
      rewrite Hpow. split; intros H.
      * assert (y / 128 < 2 ^ (7 * Z.of_nat (k - 1))) by (apply IH; lia).
        Z.div_mod_to_equations; nia.
      * assert ((List.length bs' <= k - 1)%nat); [| lia].
        apply IH. apply Z.div_lt_upper_bound; lia.
  - assert (Ebs : bs = [uint8 y]) by congruence. subst bs.
    cbn [List.length]. split; intros; [| lia].
    rewrite Hpow. nia.
Qed.

(** X2. The encoding of an unsigned 64-bit [x] has at most [k] bytes
    exactly when [x] is below [2^(7k)]: each byte carries seven bits and
    no byte is wasted. *)
Theorem encodeVarint_length (x : Z) (k : nat) :
  0 <= x < 2 ^ 64 -> (1 <= k)%nat ->
  ((List.length (encodeVarint x) <= k)%nat <-> x < 2 ^ (7 * Z.of_nat k)).
Proof.
  intros Hx Hk.
  destruct (encodeVarint_in_bounds x) as (bs & E & -> & _).
  unfold uint64 in E. rewrite Z.mod_small in E by exact Hx.
  apply (encodeVarint_loop_length _ _ _ _ E); lia.
Qed.

Lemma encodeVarint_length_witness :
  (List.length (encodeVarint 16383) <= 2)%nat <-> 16383 < 2 ^ (7 * Z.of_nat 2).
Proof.
  apply (encodeVarint_length 16383 2); [vm_compute; split; [discriminate | reflexivity] | lia].
Defined.

Lemma encodeVarint_app_inj (x y : Z) (r1 r2 : list byte) :
  0 <= x < 2 ^ 64 -> 0 <= y < 2 ^ 64 ->
  encodeVarint x ++ r1 = encodeVarint y ++ r2 ->
  x = y /\ r1 = r2.
Proof.
  intros Hx Hy E.
  pose proof (Uvarint_encodeVarint_app x r1 Hx) as Ex.
  pose proof (Uvarint_encodeVarint_app y r2 Hy) as Ey.
  rewrite E in Ex. rewrite Ex in Ey.
  assert (x = y) by congruence. subst y.
  split; [reflexivity |]. exact (app_inv_head _ _ _ E).
Qed.

(** X3. The encoding is self-delimiting: if two encoded values followed
    by any bytes give the same byte sequence, the values are equal and
    so are the bytes that follow. *)
Theorem encodeVarint_self_delimiting (x y : Z) (r1 r2 : list byte) :
  0 <= x < 2 ^ 64 -> 0 <= y < 2 ^ 64 ->
  encodeVarint x ++ r1 = encodeVarint y ++ r2 ->
  x = y /\ r1 = r2.
Proof.
  intros Hx Hy E.
  pose proof (Uvarint_encodeVarint_app x r1 Hx) as Ex.
  pose proof (Uvarint_encodeVarint_app y r2 Hy) as Ey.
  rewrite E in Ex. rewrite Ex in Ey.
  assert (x = y) by congruence. subst y.
  split; [reflexivity |]. exact (app_inv_head _ _ _ E).
Qed.

Lemma encodeVarint_self_delimiting_witness :
  300 = 300 /\ [7; 8] = [7; 8].
Proof.
  apply (encodeVarint_self_delimiting 300 300 [7; 8] [7; 8]);
    [lia | lia | reflexivity].
Defined.

(** ** Further properties of the framer *)

(** X4. A framed payload can be unframed: from the packet followed by
    any bytes, the stream reader gets the length of the payload, the
    read of that many bytes gets the payload, and the bytes that follow
    are left. *)
Theorem makePacket_unframe (pl : Buffer) (trailing : list byte) :
  len pl < 2 ^ 64 ->
  ReadUvarint (Bytes (makePacket pl) ++ trailing)
  = (len pl, None, pl ++ trailing)
  /\ ReadFull (pl ++ trailing) (len pl) = (pl, None, trailing).
Proof.
  intros Hlen. split; [| apply ReadFull_exact].
  unfold Bytes. rewrite makePacket_eq, <- app_assoc.
  apply ReadUvarint_app, varintOf_encodeVarint.
  pose proof (len_nonneg pl). lia.
Qed.

Lemma makePacket_unframe_witness :
  ReadUvarint (Bytes (makePacket [0; 2; 123; 125]) ++ [9])
  = (len [0; 2; 123; 125], None, [0; 2; 123; 125] ++ [9])
  /\ ReadFull ([0; 2; 123; 125] ++ [9]) (len [0; 2; 123; 125])
     = ([0; 2; 123; 125], None, [9]).
Proof.
  apply (makePacket_unframe [0; 2; 123; 125] [9]). reflexivity.
Defined.

Lemma makePacket_app_inj (p q : Buffer) (t1 t2 : list byte) :
  len p < 2 ^ 64 -> len q < 2 ^ 64 ->
  makePacket p ++ t1 = makePacket q ++ t2 ->
  p = q /\ t1 = t2.
Proof.
  intros Hp Hq E. rewrite !makePacket_eq, <- !app_assoc in E.
  pose proof (len_nonneg p). pose proof (len_nonneg q).
  destruct (encodeVarint_app_inj (len p) (len q) _ _
              ltac:(lia) ltac:(lia) E) as [Hlen Hrest].
  assert (Hn : List.length p = List.length q) by (unfold len in Hlen; lia).
  pose proof (f_equal (firstn (List.length p)) Hrest) as Hf.
  rewrite firstn_app, firstn_all, Nat.sub_diag in Hf. cbn [firstn] in Hf.
  rewrite Hn, firstn_app, firstn_all, Nat.sub_diag in Hf. cbn [firstn] in Hf.
  rewrite !app_nil_r in Hf. subst q.
  split; [reflexivity |]. exact (app_inv_head _ _ _ Hrest).
Qed.

(** X5. Packets are self-delimiting: two packets followed by any bytes
    that give the same stream have the same payload and the same bytes
    after it. *)
Theorem makePacket_self_delimiting (p q : Buffer) (t1 t2 : list byte) :
  len p < 2 ^ 64 -> len q < 2 ^ 64 ->
  makePacket p ++ t1 = makePacket q ++ t2 ->
  p = q /\ t1 = t2.
Proof.
  intros Hp Hq E. rewrite !makePacket_eq, <- !app_assoc in E.
  pose proof (len_nonneg p). pose proof (len_nonneg q).
  destruct (encodeVarint_app_inj (len p) (len q) _ _
              ltac:(lia) ltac:(lia) E) as [Hlen Hrest].
  assert (Hn : List.length p = List.length q) by (unfold len in Hlen; lia).
  pose proof (f_equal (firstn (List.length p)) Hrest) as Hf.
  rewrite firstn_app, firstn_all, Nat.sub_diag in Hf. cbn [firstn] in Hf.
  rewrite Hn, firstn_app, firstn_all, Nat.sub_diag in Hf. cbn [firstn] in Hf.
  rewrite !app_nil_r in Hf. subst q.
  split; [reflexivity |]. exact (app_inv_head _ _ _ Hrest).
Qed.

Lemma makePacket_self_delimiting_witness :
  [0; 1] = [0; 1] /\ [5] = [5].
Proof.
  apply (makePacket_self_delimiting [0; 1] [0; 1] [5] [5]);
    reflexivity.
Defined.

Lemma makePacket_len_bounds (pl : Buffer) :
  len pl + 1 <= len (makePacket pl) <= len pl + 10.
Proof.
  rewrite makePacket_eq, len_app.
  destruct (encodeVarint_in_bounds (len pl)) as (bs & _ & -> & Hl).
  unfold len. lia.
Qed.

(** X6. The length of a packet is the length of the payload plus the
    one to ten bytes of the prefix. *)
Theorem makePacket_length (pl : Buffer) :
  len pl + 1 <= len (makePacket pl) <= len pl + 10.
Proof.
  rewrite makePacket_eq, len_app.
  destruct (encodeVarint_in_bounds (len pl)) as (bs & _ & -> & Hl).
  unfold len. lia.
Qed.

Lemma makePacket_isByte (pl : Buffer) :
  Forall isByte pl -> Forall isByte (makePacket pl).
Proof.
  intros H. rewrite makePacket_eq. apply Forall_app.
  split; [apply encodeVarint_isByte | exact H].
Qed.

(** ** Further properties of the two sends *)

Lemma WriteTo_rejected (b : Buffer) (c : Conn) :
  b <> [] -> accepts c < len b ->
  WriteTo b c
  = (mkConn (sent c ++ firstn (Z.to_nat (Z.max 0 (accepts c))) b) 0
       (inbound c),
     Z.max 0 (accepts c), Some (OpError "write")).
Proof.
  intros Hne Hacc. unfold WriteTo, connWrite, Bytes.
  destruct (Z.ltb_spec 0 (len b)) as [_ | Hz].
  - destruct (Z.leb_spec (len b) (accepts c)); [lia | reflexivity].
  - destruct b as [| x b]; [contradiction |].
    unfold len in Hz. cbn in Hz. lia.
Qed.

Lemma statusRequest_packet : makePacket (WriteByte [] 0x00) = [1; 0].
Proof. reflexivity. Qed.

(** X7. On a connection that accepts two more bytes, [sendStatusRequest]
    writes the packet 0x01 0x00 (length one, packet ID zero) after what
    was sent before and returns no error. *)
Theorem sendStatusRequest_writes (conn : Conn) :
  2 <= accepts conn ->
  sendStatusRequest conn
  = (mkConn (sent conn ++ [0x01; 0x00]) (accepts conn - 2) (inbound conn),
     None).
Proof.
  intros Hacc. unfold sendStatusRequest. rewrite statusRequest_packet.
  rewrite WriteTo_accepted; [reflexivity | discriminate | exact Hacc].
Qed.

Lemma sendStatusRequest_writes_witness :
  sendStatusRequest (mkConn [9] 2 [])
  = (mkConn ([9] ++ [0x01; 0x00]) (2 - 2) [], None).
Proof.
  apply (sendStatusRequest_writes (mkConn [9] 2 [])). cbn. lia.
Defined.

(** X8. On a connection that accepts fewer than two bytes,
    [sendStatusRequest] returns the error [cannot write send status
    request], whatever the error of the write was; the bytes the
    connection did accept have been written. *)
Theorem sendStatusRequest_write_fails (conn : Conn) :
  accepts conn < 2 ->
  sendStatusRequest conn
  = (mkConn
       (sent conn ++ firstn (Z.to_nat (Z.max 0 (accepts conn))) [0x01; 0x00])
       0 (inbound conn),
     Some (errorsNew "cannot write send status request")).
Proof.
  intros Hacc. unfold sendStatusRequest. rewrite statusRequest_packet.
  rewrite WriteTo_rejected by (discriminate || exact Hacc). reflexivity.
Qed.

Lemma sendStatusRequest_write_fails_witness :
  sendStatusRequest (mkConn [9] 1 [])
  = (mkConn ([9] ++ firstn (Z.to_nat (Z.max 0 1)) [0x01; 0x00]) 0 [],
     Some (errorsNew "cannot write send status request")).
Proof.
  apply (sendStatusRequest_write_fails (mkConn [9] 1 [])). cbn. lia.
Defined.

(** X9. When the address splits and the port parses but the connection
    accepts fewer bytes than the handshake packet has, [sendHandShake]
    returns the error [cannot write handshake] (it does not panic); the
    bytes the connection did accept, a proper prefix of the packet, have
    been written. *)
Theorem sendHandShake_write_fails (conn : Conn) (hostport host port : string)
  (iPort : Z) :
  SplitHostPort hostport = (host, port, None) ->
  Atoi port = (iPort, None) ->
  accepts conn < len (handshakeWireFormat host iPort) ->
  sendHandShake conn hostport
  = (mkConn
       (sent conn ++ firstn (Z.to_nat (Z.max 0 (accepts conn)))
                       (handshakeWireFormat host iPort))
       0 (inbound conn),
     Returned (Some (errorsNew "cannot write handshake"))).
Proof.
  intros Hsplit Hatoi Hacc. unfold sendHandShake.
  rewrite Hsplit. cbv beta iota zeta. rewrite Hatoi. cbv beta iota zeta.
  rewrite handshake_buffer.
  rewrite WriteTo_rejected
    by (apply handshakeWireFormat_nonempty || exact Hacc).
  reflexivity.
Qed.

Lemma sendHandShake_write_fails_witness :
  sendHandShake (mkConn [] 3 []) "example.com:25565"
  = (mkConn
       ([] ++ firstn (Z.to_nat (Z.max 0 3))
                (handshakeWireFormat "example.com" 25565))
       0 [],
     Returned (Some (errorsNew "cannot write handshake"))).
Proof.
  apply (sendHandShake_write_fails (mkConn [] 3 []) "example.com:25565"
           "example.com" "25565" 25565).
  - reflexivity.
  - reflexivity.
  - reflexivity.
Defined.

Lemma bytesOf_isByte (s : string) : Forall isByte (bytesOf s).
Proof.
  unfold bytesOf. apply Forall_map, Forall_forall. intros a _.
  unfold isByte. pose proof (N_ascii_bounded a). lia.
Qed.

Lemma handshakeWireFormat_isByte (host : string) (iPort : Z) :
  Forall isByte (handshakeWireFormat host iPort).
Proof.
  unfold handshakeWireFormat. cbv zeta.
  repeat (apply Forall_app; split);
    try apply encodeVarint_isByte; try apply bytesOf_isByte.
  - repeat constructor; unfold isByte; lia.
  - repeat constructor; unfold isByte; lia.
  - unfold int16BigEndian. numerals.
    repeat constructor; unfold isByte; Z.div_mod_to_equations; lia.
  - repeat constructor; unfold isByte; lia.
Qed.

Lemma WriteTo_prefix (b : Buffer) (c c' : Conn) (n : Z) (e : option error) :
  WriteTo b c = (c', n, e) ->
  exists k, sent c' = sent c ++ firstn k b.
Proof.
  unfold WriteTo, connWrite.
  destruct (0 <? len (Bytes b)).
  - destruct (len (Bytes b) <=? accepts c).
    + rewrite Z.eqb_refl. intros E. injection E as <- _ _.
      exists (List.length b). cbn [sent]. rewrite firstn_all. reflexivity.
    + intros E. injection E as <- _ _. cbn [sent]. eauto.
  - intros E. injection E as <- _ _. exists 0%nat. cbn [firstn].
    rewrite app_nil_r. reflexivity.
Qed.

(** X10. Whatever the address and the state of the connection,
    [sendHandShake] only appends to what was sent, every value it
    appends fits a byte, it leaves the inbound bytes alone, and when it
    panics it has appended nothing. *)
Theorem sendHandShake_appends_bytes (conn c' : Conn) (hostport : string)
  (r : outcome (option error)) :
  sendHandShake conn hostport = (c', r) ->
  inbound c' = inbound conn
  /\ (exists w, sent c' = sent conn ++ w /\ Forall isByte w)
  /\ ((exists p, r = Panicked p) -> c' = conn).
Proof.
  intros E. split; [exact (sendHandShake_inbound _ _ _ _ E) |].
  revert E. unfold sendHandShake.
  destruct (SplitHostPort hostport) as [[h p] [e |]].
  { intros E. injection E as <- <-. split; [| reflexivity].
    exists []. rewrite app_nil_r. split; [reflexivity | constructor]. }
  destruct (Atoi p) as [iPort [e |]].
  { intros E. injection E as <- <-. split; [| reflexivity].
    exists []. rewrite app_nil_r. split; [reflexivity | constructor]. }
  rewrite handshake_buffer.
  destruct (WriteTo (handshakeWireFormat h iPort) conn) as [[c1 n] e] eqn:EW.
  destruct (WriteTo_prefix _ _ _ _ _ EW) as (k & Hk).
  intros E. split.
  - exists (firstn k (handshakeWireFormat h iPort)).
    split; [destruct e; injection E as <- _; exact Hk |].
    apply Forall_forall. intros x Hx.
    pose proof (handshakeWireFormat_isByte h iPort) as Hall.
    rewrite Forall_forall in Hall. apply Hall.
    rewrite <- (firstn_skipn k (handshakeWireFormat h iPort)).
    apply in_or_app. left. exact Hx.
  - intros [pn Hp]. destruct e; injection E as _ <-; discriminate Hp.
Qed.

Lemma sendHandShake_appends_bytes_witness :
  inbound (mkConn [1] 5 [7]) = inbound (mkConn [1] 5 [7])
  /\ (exists w, sent (mkConn [1] 5 [7]) = sent (mkConn [1] 5 [7]) ++ w
                /\ Forall isByte w)
  /\ ((exists p, @Panicked (option error) (PanicError
         (AddrError "missing port in address" "example.com")) = Panicked p)
      -> mkConn [1] 5 [7] = mkConn [1] 5 [7]).
Proof.
  apply (sendHandShake_appends_bytes (mkConn [1] 5 [7]) (mkConn [1] 5 [7])
           "example.com"
           (Panicked (PanicError
              (AddrError "missing port in address" "example.com")))).
  reflexivity.
Defined.

(** ** Further properties of the response decoder *)

Lemma readPong_cases {JSONValue : Type}
  (json_Unmarshal : list byte -> PingResponse JSONValue
                    -> PingResponse JSONValue * option error)
  (maxAlloc : Z) (rd : list byte) :
  (exists res, readPong json_Unmarshal maxAlloc rd = Returned (Some res, None))
  \/ (exists msg,
        In msg ["could not read length";
                "could not read length given by length header";
                "could not read packet id";
                "could not read string varint";
                "could not read pong json"]
        /\ readPong json_Unmarshal maxAlloc rd
           = Returned (None, Some (errorsNew msg)))
  \/ (readPong json_Unmarshal maxAlloc rd
      = Panicked (RuntimeError "makeslice: len out of range")
      /\ exists nl r, ReadUvarint rd = (nl, None, r) /\ maxAlloc < nl).
Proof.
  unfold readPong.
  destruct (ReadUvarint rd) as [[nl [e |]] r].
  { right; left. eexists. split; [| reflexivity]. cbn. auto. }
  destruct (Z.ltb_spec maxAlloc nl) as [Hbig | _].
  { right; right. split; [reflexivity | eauto]. }
  destruct (ReadFull r nl) as [[pl [e |]] r'].
  { right; left. eexists. split; [| reflexivity]. cbn. auto. }
  destruct (Uvarint pl) as [x n].
  destruct (n <=? 0).
  { right; left. eexists. split; [| reflexivity]. cbn. auto. }
  destruct (Uvarint (skipn (Z.to_nat n) pl)) as [x2 n2].
  destruct (n2 <=? 0).
  { right; left. eexists. split; [| reflexivity]. cbn. auto. }
  destruct (json_Unmarshal _ _) as [res [e |]].
  - right; left. eexists. split; [| reflexivity]. cbn. auto 10.
  - left. eauto.
Qed.


(** X11. Whenever [readPong] returns, it returns a response and no
    error, or no response and one of its five own messages: never both,
    never neither, and never an error of the libraries. *)
Theorem readPong_results {JSONValue : Type}
  (json_Unmarshal : list byte -> PingResponse JSONValue
                    -> PingResponse JSONValue * option error)
  (maxAlloc : Z) (rd : list byte)
  (r : option (PingResponse JSONValue) * option error) :
  readPong json_Unmarshal maxAlloc rd = Returned r ->
  (exists res, r = (Some res, None))
  \/ (exists msg,
        In msg ["could not read length";
                "could not read length given by length header";
                "could not read packet id";
                "could not read string varint";
                "could not read pong json"]
        /\ r = (None, Some (errorsNew msg))).
Proof.
  intros E.
  destruct (readPong_cases json_Unmarshal maxAlloc rd)
    as [(res & E1) | [(msg & Hin & E1) | (E1 & _)]];
    rewrite E1 in E.
  - left. exists res. congruence.
  - right. exists msg. split; [exact Hin | congruence].
  - discriminate E.
Qed.

Lemma readPong_results_witness :
  (exists res,
      (@None (PingResponse unit), Some (errorsNew "could not read packet id"))
      = (Some res, None))
  \/ (exists msg,
        In msg ["could not read length";
                "could not read length given by length header";
                "could not read packet id";
                "could not read string varint";
                "could not read pong json"]
        /\ (@None (PingResponse unit), Some (errorsNew "could not read packet id"))
           = (None, Some (errorsNew msg))).
Proof.
  apply (readPong_results emptyObjectUnmarshal (2 ^ 48) [0]
           (None, Some (errorsNew "could not read packet id"))).
  reflexivity.
Defined.

(** X12. [readPong] reads one packet: the bytes that follow the declared
    length have no effect on its result. *)
Theorem readPong_ignores_trailing {JSONValue : Type}
  (json_Unmarshal : list byte -> PingResponse JSONValue
                    -> PingResponse JSONValue * option error)
  (maxAlloc : Z) (hdr pl trailing : list byte) :
  varintOf hdr (len pl) -> len pl <= maxAlloc ->
  readPong json_Unmarshal maxAlloc (hdr ++ pl ++ trailing)
  = readPong json_Unmarshal maxAlloc (hdr ++ pl).
Proof.
  intros Hh Hmax.
  rewrite <- (app_nil_r pl) at 2.
  rewrite !(readPong_framed json_Unmarshal maxAlloc _ _ _ Hh Hmax).
  reflexivity.
Qed.

Lemma readPong_ignores_trailing_witness :
  readPong emptyObjectUnmarshal (2 ^ 48) ([4] ++ [0; 2; 123; 125] ++ [1; 2; 3])
  = readPong emptyObjectUnmarshal (2 ^ 48) ([4] ++ [0; 2; 123; 125]).
Proof.
  apply (readPong_ignores_trailing emptyObjectUnmarshal (2 ^ 48)
           [4] [0; 2; 123; 125] [1; 2; 3]).
  - split; [discriminate | reflexivity].
  - vm_compute. discriminate.
Defined.

(** X13. The decoder reads what the encoders of this file write: a
    payload made of [encodeVarint id], [encodeVarint M] and a body,
    framed by [makePacket], is decoded to the result of the JSON decoder
    on the body, for all unsigned 64-bit [id] and [M]. *)
Theorem readPong_makePacket {JSONValue : Type}
  (json_Unmarshal : list byte -> PingResponse JSONValue
                    -> PingResponse JSONValue * option error)
  (maxAlloc id M : Z) (body trailing : list byte) :
  0 <= id < 2 ^ 64 -> 0 <= M < 2 ^ 64 ->
  len (encodeVarint id ++ encodeVarint M ++ body) < 2 ^ 64 ->
  len (encodeVarint id ++ encodeVarint M ++ body) <= maxAlloc ->
  readPong json_Unmarshal maxAlloc
    (Bytes (makePacket (encodeVarint id ++ encodeVarint M ++ body))
     ++ trailing)
  = bodyResult json_Unmarshal body.
Proof.
  intros Hid HM Hlen Hmax. unfold Bytes.
  rewrite makePacket_eq, <- app_assoc.
  apply (readPong_body json_Unmarshal maxAlloc _ _ _ body trailing id M).
  - apply varintOf_encodeVarint.
    pose proof (len_nonneg (encodeVarint id ++ encodeVarint M ++ body)). lia.
  - exact Hmax.
  - apply varintOf_encodeVarint. exact Hid.
  - apply varintOf_encodeVarint. exact HM.
Qed.

Lemma readPong_makePacket_witness :
  readPong emptyObjectUnmarshal (2 ^ 48)
    (Bytes (makePacket (encodeVarint 0 ++ encodeVarint 300 ++ bytesOf "{}"))
     ++ [])
  = bodyResult emptyObjectUnmarshal (bytesOf "{}").
Proof.
  apply (readPong_makePacket emptyObjectUnmarshal (2 ^ 48) 0 300
           (bytesOf "{}") []).
  - lia.
  - lia.
  - reflexivity.
  - vm_compute. discriminate.
Defined.

(** X14. Whenever [Ping] returns, it returns a response and no error,
    or no response and an error: never both, never neither. *)
Theorem Ping_results {JSONValue : Type}
  (json_Unmarshal : list byte -> PingResponse JSONValue
                    -> PingResponse JSONValue * option error)
  (maxAlloc : Z) (DialTimeout : string -> Conn + error)
  (address : string) (port : Z)
  (r : option (PingResponse JSONValue) * option error) :
  Ping json_Unmarshal maxAlloc DialTimeout address port = Returned r ->
  (exists res, r = (Some res, None)) \/ (exists e, r = (None, Some e)).
Proof.
  unfold Ping.
  destruct (DialTimeout _) as [conn | e];
    [| intros E; right; exists e; congruence].
  destruct (sendHandShake conn _) as [c1 [[e |] | p]];
    [intros E; right; exists e; congruence | | discriminate].
  destruct (sendStatusRequest c1) as [c2 [e |]];
    [intros E; right; exists e; congruence |].
  destruct (readPong_cases json_Unmarshal maxAlloc (inbound c2))
    as [(res & ->) | [(msg & _ & ->) | (-> & _)]]; intros E.
  - left. exists res. congruence.
  - right. eexists. injection E as <-. reflexivity.
  - discriminate E.
Qed.

Lemma Ping_results_witness :
  (exists res, (@None (PingResponse unit), Some (OpError "dial"))
               = (Some res, None))
  \/ (exists e, (@None (PingResponse unit), Some (OpError "dial"))
                = (None, Some e)).
Proof.
  apply (Ping_results emptyObjectUnmarshal (2 ^ 48)
           (fun _ => inr (OpError "dial")) "localhost" 25565
           (None, Some (OpError "dial"))).
  reflexivity.
Defined.

(** ** The address that [Ping] builds *)

Lemma strlen_nonneg (s : string) : 0 <= strlen s.
Proof. unfold strlen. lia. Qed.

Lemma strlen_String (c : ascii) (s : string) :
  strlen (String c s) = strlen s + 1.
Proof. unfold strlen. cbn [String.length]. lia. Qed.

Lemma strlen_append (a s : string) :
  strlen (a ++ s) = strlen a + strlen s.
Proof.
  induction a as [| x a IH]; cbn [append].
  - unfold strlen at 2. cbn. lia.
  - rewrite !strlen_String, IH. lia.
Qed.

Lemma IndexByteString_lower (s : string) (c : ascii) :
  -1 <= IndexByteString s c.
Proof.
  induction s as [| x s IH]; cbn [IndexByteString]; [lia |].
  destruct (Ascii.eqb x c); [lia |].
  destruct (Z.ltb_spec (IndexByteString s c) 0); lia.
Qed.

Lemma IndexByteString_String (x c : ascii) (s : string) :
  IndexByteString (String x s) c = -1 <->
  Ascii.eqb x c = false /\ IndexByteString s c = -1.
Proof.
  cbn [IndexByteString]. pose proof (IndexByteString_lower s c).
  destruct (Ascii.eqb x c).
  - split; [lia | intros [? _]; discriminate].
  - destruct (Z.ltb_spec (IndexByteString s c) 0); split;
      try intros [_ ?]; try split; try reflexivity; lia.
Qed.

Lemma IndexByteString_append (a s : string) (c : ascii) :
  IndexByteString a c = -1 -> IndexByteString s c = -1 ->
  IndexByteString (a ++ s) c = -1.
Proof.
  induction a as [| x a IH]; cbn [append]; intros Ha Hs; [exact Hs |].
  apply IndexByteString_String in Ha. destruct Ha as [Hx Ha].
  apply IndexByteString_String. auto.
Qed.

Lemma LastIndexByteString_absent (s : string) (c : ascii) :
  IndexByteString s c = -1 -> LastIndexByteString s c = -1.
Proof.
  induction s as [| x s IH]; intros H; [reflexivity |].
  apply IndexByteString_String in H. destruct H as [Hx Hs].
  cbn [LastIndexByteString]. rewrite (IH Hs), Hx. reflexivity.
Qed.

Lemma LastIndexByteString_append (a s : string) (c : ascii) :
  IndexByteString s c = -1 ->
  LastIndexByteString (a ++ String c s) c = strlen a.
Proof.
  intros Hs. induction a as [| x a IH]; cbn [append LastIndexByteString].
  - rewrite (LastIndexByteString_absent s c Hs), Ascii.eqb_refl. reflexivity.
  - rewrite IH, strlen_String. pose proof (strlen_nonneg a).
    destruct (Z.leb_spec 0 (strlen a)); [reflexivity | lia].
Qed.

Lemma substring_0_all (s : string) : substring 0 (String.length s) s = s.
Proof.
  induction s as [| x s IH]; cbn [String.length substring];
    [reflexivity | rewrite IH; reflexivity].
Qed.

Lemma substring_0_append (a s : string) :
  substring 0 (String.length a) (a ++ s) = a.
Proof.
  induction a as [| x a IH]; cbn [String.length append substring].
  - destruct s; reflexivity.
  - rewrite IH. reflexivity.
Qed.

Lemma substring_skip_append (a s : string) (n m : nat) :
  substring (String.length a + n) m (a ++ s) = substring n m s.
Proof.
  induction a as [| x a IH]; cbn [String.length append substring Nat.add];
    [reflexivity | exact IH].
Qed.

Lemma slice_prefix (a s : string) : slice (a ++ s) 0 (strlen a) = a.
Proof.
  unfold slice, strlen. rewrite Z.sub_0_r, Nat2Z.id.
  change (Z.to_nat 0) with 0%nat. apply substring_0_append.
Qed.

Lemma sliceFrom_0 (s : string) : sliceFrom s 0 = s.
Proof.
  unfold sliceFrom, slice, strlen. rewrite Z.sub_0_r, Nat2Z.id.
  change (Z.to_nat 0) with 0%nat. apply substring_0_all.
Qed.

Lemma sliceFrom_suffix (a s : string) (c : ascii) :
  sliceFrom (a ++ String c s) (strlen a + 1) = s.
Proof.
  unfold sliceFrom, slice.
  rewrite strlen_append, strlen_String.
  replace (strlen a + (strlen s + 1) - (strlen a + 1)) with (strlen s) by lia.
  unfold strlen. rewrite Nat2Z.id.
  replace (Z.to_nat (Z.of_nat (String.length a) + 1))
    with (String.length a + 1)%nat by lia.
  rewrite substring_skip_append. cbn [substring].
  apply substring_0_all.
Qed.

Lemma byteAt_0_append (a s : string) (c d : ascii) :
  IndexByteString a d = -1 -> Ascii.eqb c d = false ->
  byteAt (a ++ String c s) 0 d = false.
Proof.
  intros Ha Hc. unfold byteAt. change (Z.to_nat 0) with 0%nat.
  destruct a as [| x a]; cbn [append String.get]; [exact Hc |].
  apply IndexByteString_String in Ha. tauto.
Qed.

(** [net.SplitHostPort] on a plain address joined to a port that holds
    no colon and no bracket gives back the two parts. *)
Lemma SplitHostPort_join (address port : string) :
  plainAddress address -> plainAddress port ->
  SplitHostPort (address ++ ":" ++ port) = (address, port, None).
Proof.
  intros (Ha1 & Ha2 & Ha3) (Hp1 & Hp2 & Hp3).
  unfold SplitHostPort. cbn [append].
  cbv zeta.
  rewrite (LastIndexByteString_append address port ":" Hp1).
  pose proof (strlen_nonneg address) as Hn.
  destruct (Z.ltb_spec (strlen address) 0) as [Hneg | _]; [lia |].
  rewrite (byteAt_0_append address port ":" "[" Ha2 eq_refl).
  rewrite slice_prefix, Ha1.
  change (0 <=? -1) with false. cbv beta iota.
  rewrite sliceFrom_0.
  rewrite (IndexByteString_append address (String ":" port) "[" Ha2)
    by (apply IndexByteString_String; split; [reflexivity | exact Hp2]).
  rewrite (IndexByteString_append address (String ":" port) "]" Ha3)
    by (apply IndexByteString_String; split; [reflexivity | exact Hp3]).
  change (0 <=? -1) with false. cbv beta iota.
  rewrite sliceFrom_suffix. reflexivity.
Qed.

Lemma digitsValue_acc (d : Decimal.uint) :
  forall acc, Z.pos (Pos.of_uint_acc d acc) = digitsValue d (Z.pos acc).
Proof.
  induction d as [| d IH | d IH | d IH | d IH | d IH | d IH | d IH | d IH
                   | d IH | d IH];
    intros acc; cbn [Pos.of_uint_acc digitsValue];
    [reflexivity | rewrite IH; f_equal; lia ..].
Qed.

Lemma digitsValue_of_uint (d : Decimal.uint) :
  Z.of_N (Pos.of_uint d) = digitsValue d 0.
Proof.
  induction d as [| d IH | d IH | d IH | d IH | d IH | d IH | d IH | d IH
                   | d IH | d IH];
    cbn [Pos.of_uint digitsValue]; change (0 * 10 + 0) with 0;
    [reflexivity | exact IH | cbn [Z.of_N]; apply digitsValue_acc ..].
Qed.

Lemma digitsValue_to_uint (p : positive) :
  digitsValue (Pos.to_uint p) 0 = Z.pos p.
Proof.
  rewrite <- digitsValue_of_uint, DecimalPos.Unsigned.of_to. reflexivity.
Qed.

Lemma digitsValue_grows (d : Decimal.uint) :
  forall n, 0 <= n -> n <= digitsValue d n.
Proof.
  induction d as [| d IH | d IH | d IH | d IH | d IH | d IH | d IH | d IH
                   | d IH | d IH];
    intros n Hn; cbn [digitsValue]; [lia | ..];
    match goal with
    | |- _ <= digitsValue _ ?m => specialize (IH m ltac:(lia)); lia
    end.
Qed.

(** The digit loop of [strconv] reads back what the decimal printer
    wrote, as long as the value fits 64 bits. *)
Lemma parseDigits_string_of_uint (d : Decimal.uint) :
  forall n, 0 <= n -> digitsValue d n < 2 ^ 64 ->
    parseDigits (list_ascii_of_string (NilEmpty.string_of_uint d)) n
    = inl (digitsValue d n).
Proof.
  induction d as [| d IH | d IH | d IH | d IH | d IH | d IH | d IH | d IH
                   | d IH | d IH];
    intros n Hn Hfit;
    cbn [NilEmpty.string_of_uint list_ascii_of_string parseDigits digitsValue];
    [reflexivity | ..];
    cbn [digitsValue] in Hfit;
    match goal with
    | |- context [Z.of_N (N_of_ascii ?c) - 48] =>
        let v := eval vm_compute in (Z.of_N (N_of_ascii c) - 48) in
        change (Z.of_N (N_of_ascii c) - 48) with v;
        change ((0 <=? v) && (v <=? 9))%bool with true
    end;
    cbv iota;
    match goal with
    | H : digitsValue d ?m < _ |- _ =>
        pose proof (digitsValue_grows d m ltac:(lia));
        destruct (Z.leb_spec (2 ^ 64) m); [lia | apply IH; lia]
    end.
Qed.

Lemma Atoi_unsigned (s : string) (c : ascii) (cs : list ascii) (v : Z) :
  list_ascii_of_string s = c :: cs ->
  Ascii.eqb c "-" = false -> Ascii.eqb c "+" = false ->
  parseDigits (c :: cs) 0 = inl v -> v < 2 ^ 63 ->
  Atoi s = (v, None).
Proof.
  intros Hs Hminus Hplus Hparse Hv. unfold Atoi.
  rewrite Hs, Hminus, Hplus. cbn [orb negb andb]. rewrite Hparse.
  destruct (Z.leb_spec (2 ^ 63) v); [lia | reflexivity].
Qed.

Lemma Atoi_negative (s : string) (cs : list ascii) (v : Z) :
  list_ascii_of_string s = "-"%char :: cs -> cs <> [] ->
  parseDigits cs 0 = inl v -> v <= 2 ^ 63 ->
  Atoi s = (- v, None).
Proof.
  intros Hs Hne Hparse Hv. unfold Atoi.
  rewrite Hs. change (Ascii.eqb "-" "-") with true. cbn [orb negb andb].
  destruct cs as [| c cs]; [contradiction |]. rewrite Hparse.
  destruct (Z.ltb_spec (2 ^ 63) v); [lia | reflexivity].
Qed.

Lemma string_of_uint_head (d : Decimal.uint) :
  d <> Decimal.Nil ->
  exists c cs,
    list_ascii_of_string (NilEmpty.string_of_uint d) = c :: cs
    /\ Ascii.eqb c "-" = false /\ Ascii.eqb c "+" = false.
Proof.
  destruct d; intros H; [contradiction | ..];
    cbn [NilEmpty.string_of_uint list_ascii_of_string]; eauto.
Qed.

Lemma NilZero_string_of_uint_nonnil (d : Decimal.uint) :
  d <> Decimal.Nil ->
  NilZero.string_of_uint d = NilEmpty.string_of_uint d.
Proof. destruct d; intros H; [contradiction | reflexivity ..]. Qed.

(** [strconv.Atoi] reads back the decimal form [%d] prints, for every
    value of Go's [int]. *)
Lemma Atoi_string_of_int (p : Z) :
  isInt p -> Atoi (NilZero.string_of_int (Z.to_int p)) = (p, None).
Proof.
  unfold isInt. intros Hp. destruct p as [| q | q]; [reflexivity | |];
    cbn [Z.to_int NilZero.string_of_int];
    pose proof (DecimalPos.Unsigned.to_uint_nonnil q) as Hnn;
    rewrite (NilZero_string_of_uint_nonnil _ Hnn);
    destruct (string_of_uint_head _ Hnn) as (c & cs & Hcs & Hm & Hpl);
    assert (Hparse :
      parseDigits (list_ascii_of_string
                     (NilEmpty.string_of_uint (Pos.to_uint q))) 0
      = inl (Z.pos q))
      by (rewrite <- (digitsValue_to_uint q);
          apply parseDigits_string_of_uint;
          [lia | rewrite digitsValue_to_uint; lia]).
  - apply (Atoi_unsigned _ c cs (Z.pos q)); try assumption; [| lia].
    rewrite <- Hcs. exact Hparse.
  - change (Z.neg q) with (- Z.pos q).
    apply (Atoi_negative _ (c :: cs) (Z.pos q)).
    + cbn [list_ascii_of_string]. rewrite Hcs. reflexivity.
    + discriminate.
    + rewrite <- Hcs. exact Hparse.
    + lia.
Qed.

Lemma string_of_uint_plain (d : Decimal.uint) :
  plainAddress (NilEmpty.string_of_uint d).
Proof.
  unfold plainAddress.
  induction d as [| d IH | d IH | d IH | d IH | d IH | d IH | d IH | d IH
                   | d IH | d IH];
    cbn [NilEmpty.string_of_uint]; [repeat split | ..];
    destruct IH as (I1 & I2 & I3);
    repeat split; apply IndexByteString_String; split;
      (reflexivity || assumption).
Qed.

Lemma string_of_int_plain (p : Z) :
  plainAddress (NilZero.string_of_int (Z.to_int p)).
Proof.
  destruct p as [| q | q]; [repeat split | |];
    cbn [Z.to_int NilZero.string_of_int];
    rewrite (NilZero_string_of_uint_nonnil _
               (DecimalPos.Unsigned.to_uint_nonnil q)).
  - apply string_of_uint_plain.
  - destruct (string_of_uint_plain (Pos.to_uint q)) as (I1 & I2 & I3).
    repeat split; apply IndexByteString_String; split;
      (reflexivity || assumption).
Qed.

(** The address [Ping] builds splits back into its two parts, and the
    port parses back to the number. *)
Lemma Sprintf_s_d_splits (address : string) (port : Z) :
  plainAddress address -> isInt port ->
  exists digits,
    SplitHostPort (Sprintf_s_d address port) = (address, digits, None)
    /\ Atoi digits = (port, None).
Proof.
  intros Ha Hp. exists (NilZero.string_of_int (Z.to_int port)). split.
  - apply SplitHostPort_join; [exact Ha | apply string_of_int_plain].
  - apply Atoi_string_of_int. exact Hp.
Qed.

(** ** The exchange on an address that [Ping] builds *)

Lemma sendHandShake_accepted (conn : Conn) (hostport host port : string)
  (iPort : Z) :
  SplitHostPort hostport = (host, port, None) ->
  Atoi port = (iPort, None) ->
  len (handshakeWireFormat host iPort) <= accepts conn ->
  sendHandShake conn hostport
  = (mkConn (sent conn ++ handshakeWireFormat host iPort)
       (accepts conn - len (handshakeWireFormat host iPort))
       (inbound conn),
     Returned None).
Proof.
  intros Hsplit Hatoi Hacc. unfold sendHandShake.
  rewrite Hsplit. cbv beta iota zeta. rewrite Hatoi. cbv beta iota zeta.
  rewrite handshake_buffer.
  rewrite WriteTo_accepted
    by (auto using handshakeWireFormat_nonempty).
  reflexivity.
Qed.

Lemma sendHandShake_rejected (conn : Conn) (hostport host port : string)
  (iPort : Z) :
  SplitHostPort hostport = (host, port, None) ->
  Atoi port = (iPort, None) ->
  accepts conn < len (handshakeWireFormat host iPort) ->
  sendHandShake conn hostport
  = (mkConn
       (sent conn ++ firstn (Z.to_nat (Z.max 0 (accepts conn)))
                       (handshakeWireFormat host iPort))
       0 (inbound conn),
     Returned (Some (errorsNew "cannot write handshake"))).
Proof.
  intros Hsplit Hatoi Hacc. unfold sendHandShake.
  rewrite Hsplit. cbv beta iota zeta. rewrite Hatoi. cbv beta iota zeta.
  rewrite handshake_buffer.
  rewrite WriteTo_rejected
    by (apply handshakeWireFormat_nonempty || exact Hacc).
  reflexivity.
Qed.

Lemma sendHandShake_plain_address_eq (conn : Conn) (address : string)
  (port : Z) :
  plainAddress address -> isInt port ->
  sendHandShake conn (Sprintf_s_d address port)
  = if len (handshakeWireFormat address port) <=? accepts conn
    then (mkConn (sent conn ++ handshakeWireFormat address port)
            (accepts conn - len (handshakeWireFormat address port))
            (inbound conn),
          Returned None)
    else (mkConn
            (sent conn ++ firstn (Z.to_nat (Z.max 0 (accepts conn)))
                            (handshakeWireFormat address port))
            0 (inbound conn),
          Returned (Some (errorsNew "cannot write handshake"))).
Proof.
  intros Ha Hp.
  destruct (Sprintf_s_d_splits address port Ha Hp) as (digits & Hs & Hd).
  destruct (Z.leb_spec (len (handshakeWireFormat address port)) (accepts conn)).
  - apply (sendHandShake_accepted _ _ _ _ _ Hs Hd). assumption.
  - apply (sendHandShake_rejected _ _ _ _ _ Hs Hd). assumption.
Qed.

(** X15. For an address without colon or bracket and a port in the range
    of [int], the handshake on the address that [Ping] builds never
    panics: it writes the handshake packet for that address and port
    and returns no error, or, when the connection accepts fewer bytes,
    writes what is accepted and returns [cannot write handshake]. *)
Theorem sendHandShake_plain_address (conn : Conn) (address : string)
  (port : Z) :
  plainAddress address -> isInt port ->
  sendHandShake conn (Sprintf_s_d address port)
  = if len (handshakeWireFormat address port) <=? accepts conn
    then (mkConn (sent conn ++ handshakeWireFormat address port)
            (accepts conn - len (handshakeWireFormat address port))
            (inbound conn),
          Returned None)
    else (mkConn
            (sent conn ++ firstn (Z.to_nat (Z.max 0 (accepts conn)))
                            (handshakeWireFormat address port))
            0 (inbound conn),
          Returned (Some (errorsNew "cannot write handshake"))).
Proof.
  intros Ha Hp.
  destruct (Sprintf_s_d_splits address port Ha Hp) as (digits & Hs & Hd).
  destruct (Z.leb_spec (len (handshakeWireFormat address port)) (accepts conn)).
  - apply (sendHandShake_accepted _ _ _ _ _ Hs Hd). assumption.
  - apply (sendHandShake_rejected _ _ _ _ _ Hs Hd). assumption.
Qed.

Lemma sendHandShake_plain_address_witness :
  sendHandShake (mkConn [] 100 []) (Sprintf_s_d "mc.example.org" (-1))
  = if len (handshakeWireFormat "mc.example.org" (-1)) <=? 100
    then (mkConn ([] ++ handshakeWireFormat "mc.example.org" (-1))
            (100 - len (handshakeWireFormat "mc.example.org" (-1))) [],
          Returned None)
    else (mkConn
            ([] ++ firstn (Z.to_nat (Z.max 0 100))
                     (handshakeWireFormat "mc.example.org" (-1)))
            0 [],
          Returned (Some (errorsNew "cannot write handshake"))).
Proof.
  apply (sendHandShake_plain_address (mkConn [] 100 []) "mc.example.org" (-1)).
  - repeat split.
  - unfold isInt. lia.
Defined.



Section PingFacts.

Context {JSONValue : Type}.
Variable json_Unmarshal :
  list byte -> PingResponse JSONValue -> PingResponse JSONValue * option error.
Variable maxAlloc : Z.
Variable DialTimeout : string -> Conn + error.

(** Once connected with a plain address and with room for both packets,
    [Ping] returns what [readPong] makes of the inbound bytes. *)
Lemma Ping_reads (address : string) (port : Z) (conn : Conn) :
  plainAddress address -> isInt port ->
  DialTimeout (Sprintf_s_d address port) = inl conn ->
  len (handshakeWireFormat address port) + 2 <= accepts conn ->
  Ping json_Unmarshal maxAlloc DialTimeout address port
  = match readPong json_Unmarshal maxAlloc (inbound conn) with
    | Panicked p => Panicked p
    | Returned (_, Some err) => Returned (None, Some err)
    | Returned (pong, None) => Returned (pong, None)
    end.
Proof.
  intros Ha Hp Hdial Hacc.
  destruct (Sprintf_s_d_splits address port Ha Hp) as (digits & Hs & Hd).
  unfold Ping. rewrite Hdial.
  rewrite (sendHandShake_accepted _ _ _ _ _ Hs Hd) by lia.
  unfold sendStatusRequest. rewrite statusRequest_packet.
  rewrite WriteTo_accepted; cbn [accepts sent inbound];
    change (len [1; 0]) with 2; [| discriminate | lia].
  reflexivity.
Qed.

End PingFacts.

(** X17. The whole exchange: for a plain address and a port in range, a
    dial that succeeds, a connection that accepts both packets and an
    inbound packet with two header varints and a body that
    [json.Unmarshal] accepts, [Ping] returns the decoded response and no
    error. *)
Theorem Ping_succeeds {JSONValue : Type}
  (json_Unmarshal : list byte -> PingResponse JSONValue
                    -> PingResponse JSONValue * option error)
  (maxAlloc : Z) (DialTimeout : string -> Conn + error)
  (address : string) (port : Z) (conn : Conn)
  (hdr v1 v2 body trailing : list byte) (id M : Z)
  (res : PingResponse JSONValue) :
  plainAddress address -> isInt port ->
  DialTimeout (Sprintf_s_d address port) = inl conn ->
  len (handshakeWireFormat address port) + 2 <= accepts conn ->
  inbound conn = hdr ++ (v1 ++ v2 ++ body) ++ trailing ->
  varintOf hdr (len (v1 ++ v2 ++ body)) ->
  len (v1 ++ v2 ++ body) <= maxAlloc ->
  varintOf v1 id -> varintOf v2 M ->
  json_Unmarshal body zeroPingResponse = (res, None) ->
  Ping json_Unmarshal maxAlloc DialTimeout address port
  = Returned (Some res, None).
Proof.
  intros Ha Hp Hdial Hacc Hin Hh Hmax H1 H2 Hjson.
  rewrite (Ping_reads json_Unmarshal maxAlloc DialTimeout address port conn
             Ha Hp Hdial Hacc).
  rewrite Hin.
  rewrite (readPong_body json_Unmarshal maxAlloc hdr v1 v2 body trailing
             id M Hh Hmax H1 H2).
  unfold bodyResult. rewrite Hjson. reflexivity.
Qed.

Lemma Ping_succeeds_witness :
  Ping emptyObjectUnmarshal (2 ^ 48)
    (fun _ => inl (mkConn [] 100 ([4] ++ ([0] ++ [2] ++ bytesOf "{}") ++ [])))
    "localhost" 25565
  = Returned (Some zeroPingResponse, None).
Proof.
  apply (Ping_succeeds emptyObjectUnmarshal (2 ^ 48)
           (fun _ => inl (mkConn [] 100
                            ([4] ++ ([0] ++ [2] ++ bytesOf "{}") ++ [])))
           "localhost" 25565
           (mkConn [] 100 ([4] ++ ([0] ++ [2] ++ bytesOf "{}") ++ []))
           [4] [0] [2] (bytesOf "{}") [] 0 2 zeroPingResponse).
  - repeat split.
  - unfold isInt. lia.
  - reflexivity.
  - vm_compute. discriminate.
  - reflexivity.
  - split; [discriminate | reflexivity].
  - vm_compute. discriminate.
  - split; [discriminate | reflexivity].
  - split; [discriminate | reflexivity].
  - reflexivity.
Defined.

(** X18. The first failure ends the exchange.  When the connection does
    not accept the whole handshake packet, [Ping] returns [cannot write
    handshake] and no response, whatever the server would have sent. *)
Theorem Ping_handshake_write_fails {JSONValue : Type}
  (json_Unmarshal : list byte -> PingResponse JSONValue
                    -> PingResponse JSONValue * option error)
  (maxAlloc : Z) (DialTimeout : string -> Conn + error)
  (address : string) (port : Z) (conn : Conn) :
  plainAddress address -> isInt port ->
  DialTimeout (Sprintf_s_d address port) = inl conn ->
  accepts conn < len (handshakeWireFormat address port) ->
  Ping json_Unmarshal maxAlloc DialTimeout address port
  = Returned (None, Some (errorsNew "cannot write handshake")).
Proof.
  intros Ha Hp Hdial Hacc.
  destruct (Sprintf_s_d_splits address port Ha Hp) as (digits & Hs & Hd).
  unfold Ping. rewrite Hdial.
  rewrite (sendHandShake_rejected _ _ _ _ _ Hs Hd) by lia.
  reflexivity.
Qed.

Lemma Ping_handshake_write_fails_witness :
  Ping emptyObjectUnmarshal (2 ^ 48)
    (fun _ => inl (mkConn [] 5 [4; 0; 2; 123; 125]))
    "localhost" 25565
  = Returned (None, Some (errorsNew "cannot write handshake")).
Proof.
  apply (Ping_handshake_write_fails emptyObjectUnmarshal (2 ^ 48)
           (fun _ => inl (mkConn [] 5 [4; 0; 2; 123; 125]))
           "localhost" 25565 (mkConn [] 5 [4; 0; 2; 123; 125])).
  - repeat split.
  - unfold isInt. lia.
  - reflexivity.
  - reflexivity.
Defined.



(** X20. With a plain address and a port in range, the only panic
    [Ping] can end in is that of the allocation in [readPong]: the
    handshake does not panic. *)
Theorem Ping_plain_address_panic {JSONValue : Type}
  (json_Unmarshal : list byte -> PingResponse JSONValue
                    -> PingResponse JSONValue * option error)
  (maxAlloc : Z) (DialTimeout : string -> Conn + error)
  (address : string) (port : Z) (p : panic) :
  plainAddress address -> isInt port ->
  Ping json_Unmarshal maxAlloc DialTimeout address port = Panicked p ->
  p = RuntimeError "makeslice: len out of range".
Proof.
  intros Ha Hp. unfold Ping.
  destruct (DialTimeout _) as [conn | e]; [| discriminate].
  rewrite (sendHandShake_plain_address_eq conn address port Ha Hp).
  destruct (len (handshakeWireFormat address port) <=? accepts conn);
    [| discriminate].
  destruct (sendStatusRequest _) as [c2 [e |]]; [discriminate |].
  destruct (readPong_cases json_Unmarshal maxAlloc (inbound c2))
    as [(res & ->) | [(msg & _ & ->) | (-> & _)]];
    [discriminate | discriminate | congruence].
Qed.

Lemma Ping_plain_address_panic_witness :
  RuntimeError "makeslice: len out of range"
  = RuntimeError "makeslice: len out of range".
Proof.
  apply (Ping_plain_address_panic emptyObjectUnmarshal (2 ^ 48)
           (fun _ => inl (mkConn [] 100
              [0xFF; 0xFF; 0xFF; 0xFF; 0xFF; 0xFF; 0xFF; 0xFF; 0xFF; 0x01]))
           "localhost" 25565).
  - repeat split.
  - unfold isInt. lia.
  - vm_compute. reflexivity.
Defined.

(** ** What the handshake packet tells apart *)

Lemma app_inj_length {A : Type} (l1 l2 r1 r2 : list A) :
  List.length l1 = List.length l2 -> l1 ++ r1 = l2 ++ r2 ->
  l1 = l2 /\ r1 = r2.
Proof.
  revert l2. induction l1 as [| x l1 IH]; intros [| y l2] Hlen E;
    try discriminate Hlen.
  - auto.
  - cbn [app] in E. injection E as -> E. cbn [List.length] in Hlen.
    destruct (IH l2 ltac:(lia) E) as [-> ->]. auto.
Qed.

Lemma bytesOf_length (s : string) : len (bytesOf s) = strlen s.
Proof.
  unfold len, bytesOf, strlen. rewrite length_map. f_equal.
  induction s as [| c s IH]; cbn [list_ascii_of_string List.length String.length];
    [reflexivity | rewrite IH; reflexivity].
Qed.

Lemma bytesOf_inj (s t : string) : bytesOf s = bytesOf t -> s = t.
Proof.
  unfold bytesOf. revert t.
  induction s as [| c s IH]; intros [| d t] E; cbn in E;
    try discriminate E; [reflexivity |].
  injection E as Hc E.
  apply N2Z.inj in Hc.
  assert (c = d).
  { rewrite <- (ascii_N_embedding c), <- (ascii_N_embedding d), Hc.
    reflexivity. }
  subst d. f_equal. apply IH. exact E.
Qed.

Lemma int16BigEndian_eq (p q : Z) :
  int16BigEndian (int16 p) = int16BigEndian (int16 q)
  <-> p mod 2 ^ 16 = q mod 2 ^ 16.
Proof.
  unfold int16BigEndian, int16. numerals. split.
  - intros E. injection E as E1 E2. Z.div_mod_to_equations; lia.
  - intros E. f_equal; [| f_equal]; Z.div_mod_to_equations; lia.
Qed.

Lemma len_cons {A : Type} (x : A) (l : list A) : len (x :: l) = 1 + len l.
Proof. unfold len. cbn [List.length]. lia. Qed.

Lemma handshakeWireFormat_makePacket (host : string) (port : Z) :
  handshakeWireFormat host port = makePacket (handshakePayload host port).
Proof. rewrite makePacket_eq. reflexivity. Qed.

Lemma handshakePayload_length (host : string) (port : Z) :
  len (handshakePayload host port)
  = 5 + len (encodeVarint (strlen host)) + strlen host.
Proof.
  unfold handshakePayload, int16BigEndian.
  rewrite !len_app, !len_cons, bytesOf_length.
  unfold len. cbn [List.length]. lia.
Qed.

Lemma handshakeWireFormat_inj_port (h : string) (p1 p2 : Z) :
  p1 mod 2 ^ 16 = p2 mod 2 ^ 16 ->
  handshakeWireFormat h p1 = handshakeWireFormat h p2.
Proof.
  intros Hp. apply int16BigEndian_eq in Hp.
  unfold handshakeWireFormat. cbv zeta. rewrite Hp. reflexivity.
Qed.

Lemma handshakeWireFormat_inj (h1 h2 : string) (p1 p2 : Z) :
  len (handshakeWireFormat h1 p1) < 2 ^ 64 ->
  len (handshakeWireFormat h2 p2) < 2 ^ 64 ->
  (handshakeWireFormat h1 p1 = handshakeWireFormat h2 p2
   <-> h1 = h2 /\ p1 mod 2 ^ 16 = p2 mod 2 ^ 16).
Proof.
  rewrite !handshakeWireFormat_makePacket. intros B1 B2. split.
  - intros E.
    pose proof (makePacket_len_bounds (handshakePayload h1 p1)) as M1.
    pose proof (makePacket_len_bounds (handshakePayload h2 p2)) as M2.
    pose proof (handshakePayload_length h1 p1) as L1.
    pose proof (handshakePayload_length h2 p2) as L2.
    pose proof (len_nonneg (encodeVarint (strlen h1))).
    pose proof (len_nonneg (encodeVarint (strlen h2))).
    pose proof (strlen_nonneg h1). pose proof (strlen_nonneg h2).
    assert (E' : makePacket (handshakePayload h1 p1) ++ []
                 = makePacket (handshakePayload h2 p2) ++ [])
      by (rewrite !app_nil_r; exact E).
    apply makePacket_app_inj in E'; [| lia | lia].
    destruct E' as [Epl _]. unfold handshakePayload in Epl.
    apply app_inv_head in Epl.
    apply encodeVarint_app_inj in Epl; [| lia | lia].
    destruct Epl as [Hlen Epl].
    apply app_inj_length in Epl.
    + destruct Epl as [Eh Ep]. apply bytesOf_inj in Eh. subst h2.
      split; [reflexivity |].
      apply int16BigEndian_eq. exact (app_inv_tail _ _ _ Ep).
    + pose proof (bytesOf_length h1) as A1.
      pose proof (bytesOf_length h2) as A2.
      unfold len in A1, A2. lia.
  - intros [-> Hp]. apply int16BigEndian_eq in Hp.
    unfold handshakePayload. rewrite Hp. reflexivity.
Qed.

(** X21. Two handshakes that are written whole to fresh connections put
    the same bytes on the wire exactly when the addresses are equal and
    the ports are congruent modulo [2^16]: the packet tells addresses
    apart, and ports only by their low 16 bits. *)
Theorem handshake_distinguishes (a : Z) (h1 h2 : string) (p1 p2 : Z) :
  plainAddress h1 -> plainAddress h2 -> isInt p1 -> isInt p2 ->
  a < 2 ^ 64 ->
  len (handshakeWireFormat h1 p1) <= a ->
  len (handshakeWireFormat h2 p2) <= a ->
  (sent (fst (sendHandShake (mkConn [] a []) (Sprintf_s_d h1 p1)))
   = sent (fst (sendHandShake (mkConn [] a []) (Sprintf_s_d h2 p2)))
   <-> h1 = h2 /\ p1 mod 2 ^ 16 = p2 mod 2 ^ 16).
Proof.
  intros Ha1 Ha2 Hp1 Hp2 Ha L1 L2.
  destruct (Sprintf_s_d_splits h1 p1 Ha1 Hp1) as (d1 & Hs1 & Hd1).
  destruct (Sprintf_s_d_splits h2 p2 Ha2 Hp2) as (d2 & Hs2 & Hd2).
  rewrite (sendHandShake_accepted _ _ _ _ _ Hs1 Hd1) by exact L1.
  rewrite (sendHandShake_accepted _ _ _ _ _ Hs2 Hd2) by exact L2.
  cbn [fst sent app].
  apply handshakeWireFormat_inj; lia.
Qed.

Lemma handshake_distinguishes_witness :
  sent (fst (sendHandShake (mkConn [] 100 []) (Sprintf_s_d "localhost" 70000)))
  = sent (fst (sendHandShake (mkConn [] 100 []) (Sprintf_s_d "localhost" 4464)))
  <-> "localhost" = "localhost" /\ 70000 mod 2 ^ 16 = 4464 mod 2 ^ 16.
Proof.
  apply (handshake_distinguishes 100 "localhost" "localhost" 70000 4464).
  - repeat split.
  - repeat split.
  - unfold isInt. lia.
  - unfold isInt. lia.
  - lia.
  - vm_compute. discriminate.
  - vm_compute. discriminate.
Defined.

(** ** A length header that does not fit 64 bits *)

Lemma ReadUvarint_loop_overflow (cs : list byte) (b : byte) (rest : list byte) :
  forall i x s,
    (i + List.length cs = 9)%nat -> Forall continues cs ->
    1 < b < 0x80 ->
    exists v, ReadUvarint_loop (cs ++ b :: rest) i x s
              = (v, Some errOverflow, rest).
Proof.
  induction cs as [| c cs IH]; intros i x s Hi Hall Hb.
  - cbn [List.length] in Hi. assert (i = 9%nat) by lia. subst i.
    cbn [app ReadUvarint_loop]. unfold MaxVarintLen64.
    change (10 <=? 9)%nat with false. change (9 =? 10 - 1)%nat with true.
    destruct (Z.ltb_spec b 128); [| lia].
    destruct (Z.ltb_spec 1 b); [| lia].
    cbn [andb]. eauto.
  - inversion Hall as [| ? ? Hc Hcs]; subst. unfold continues in Hc.
    cbn [List.length] in Hi. cbn [app ReadUvarint_loop].
    unfold MaxVarintLen64.
    destruct (Nat.leb_spec 10 i); [lia |].
    destruct (Z.ltb_spec c 128); [lia |].
    apply IH; [lia | exact Hcs | exact Hb].
Qed.

(** X22. A length header of ten bytes whose last byte is above 1 would
    hold a value of [2^64] or more; [readPong] rejects it with [could
    not read length] and allocates nothing, whatever follows. *)
Theorem readPong_header_overflow {JSONValue : Type}
  (json_Unmarshal : list byte -> PingResponse JSONValue
                    -> PingResponse JSONValue * option error)
  (maxAlloc : Z) (cs : list byte) (b : byte) (rest : list byte) :
  List.length cs = 9%nat -> Forall continues cs -> 1 < b < 0x80 ->
  readPong json_Unmarshal maxAlloc (cs ++ b :: rest)
  = Returned (None, Some (errorsNew "could not read length")).
Proof.
  intros Hlen Hall Hb. unfold readPong, ReadUvarint.
  destruct (ReadUvarint_loop_overflow cs b rest 0 0 0) as (v & ->);
    [exact Hlen | exact Hall | exact Hb |].
  reflexivity.
Qed.

Lemma readPong_header_overflow_witness :
  readPong emptyObjectUnmarshal (2 ^ 48)
    ([0xFF; 0xFF; 0xFF; 0xFF; 0xFF; 0xFF; 0xFF; 0xFF; 0xFF] ++ 0x02 :: [0; 0])
  = Returned (None, Some (errorsNew "could not read length")).
Proof.
  apply (readPong_header_overflow emptyObjectUnmarshal (2 ^ 48)
           [0xFF; 0xFF; 0xFF; 0xFF; 0xFF; 0xFF; 0xFF; 0xFF; 0xFF] 0x02 [0; 0]).
  - reflexivity.
  - repeat constructor; unfold continues; lia.
  - lia.
Defined.

(** ** An address that does not split *)







(** ** The port field of the handshake *)

Lemma int16BigEndian_bits (p : Z) :
  int16BigEndian (int16 p) = [Z.land (Z.shiftr p 8) 0xFF; Z.land p 0xFF].
Proof.
  pose proof (binaryWrite_int16_bytes [] p) as E1.
  destruct (binaryWrite_int16_modulo [] p) as (E2 & _).
  rewrite E1 in E2. exact E2.
Qed.

(** C10. For every port value [iPort] that [sendHandShake] parses, the
    two port bytes it writes into the handshake packet, between the host
    bytes and the final 0x01, are [iPort >> 8 & 0xFF] and
    [iPort & 0xFF], which are the bytes of [iPort mod 2^16], high byte
    first; the signed 16-bit value is negative exactly when
    [iPort mod 2^16] is at least [2^15], and what is written is the
    handshake of the port truncated to its low 16 bits. *)
Theorem port_bytes_modulo (conn : Conn) (hostport host port : string)
  (iPort : Z) :
  SplitHostPort hostport = (host, port, None) ->
  Atoi port = (iPort, None) ->
  len (handshakeWireFormat host iPort) <= accepts conn ->
  sent (fst (sendHandShake conn hostport))
  = sent conn
    ++ encodeVarint (len (handshakePayload host iPort))
    ++ [0x00; 0x2F] ++ encodeVarint (strlen host) ++ bytesOf host
    ++ [Z.land (Z.shiftr iPort 8) 0xFF; Z.land iPort 0xFF] ++ [0x01]
  /\ [Z.land (Z.shiftr iPort 8) 0xFF; Z.land iPort 0xFF]
     = [(iPort mod 2 ^ 16) / 2 ^ 8; (iPort mod 2 ^ 16) mod 2 ^ 8]
  /\ (int16 iPort <? 0) = (2 ^ 15 <=? iPort mod 2 ^ 16)
  /\ sent (fst (sendHandShake conn hostport))
     = sent conn ++ handshakeWireFormat host (iPort mod 2 ^ 16).
Proof.
  intros Hsplit Hatoi Hacc.
  assert (Hsent : sent (fst (sendHandShake conn hostport))
                  = sent conn ++ handshakeWireFormat host iPort).
  { unfold sendHandShake.
    rewrite Hsplit. cbv beta iota zeta. rewrite Hatoi. cbv beta iota zeta.
    rewrite handshake_buffer.
    rewrite WriteTo_accepted by (auto using handshakeWireFormat_nonempty).
    reflexivity. }
  destruct (binaryWrite_int16_modulo [] iPort) as (E1 & E2 & _ & E4).
  rewrite E1 in E2. cbn [app] in E2.
  split; [| split; [exact E2 | split; [exact E4 |]]].
  - rewrite Hsent, handshakeWireFormat_makePacket, makePacket_eq.
    unfold handshakePayload at 2. rewrite int16BigEndian_bits.
    reflexivity.
  - rewrite Hsent. f_equal.
    apply handshakeWireFormat_inj_port.
    rewrite Z.mod_mod by lia. reflexivity.
Qed.

Lemma port_bytes_modulo_witness :
  sent (fst (sendHandShake (mkConn [] 100 []) "example.com:40000"))
  = sent (mkConn [] 100 [])
    ++ encodeVarint (len (handshakePayload "example.com" 40000))
    ++ [0x00; 0x2F] ++ encodeVarint (strlen "example.com")
    ++ bytesOf "example.com"
    ++ [Z.land (Z.shiftr 40000 8) 0xFF; Z.land 40000 0xFF] ++ [0x01]
  /\ [Z.land (Z.shiftr 40000 8) 0xFF; Z.land 40000 0xFF]
     = [(40000 mod 2 ^ 16) / 2 ^ 8; (40000 mod 2 ^ 16) mod 2 ^ 8]
  /\ (int16 40000 <? 0) = (2 ^ 15 <=? 40000 mod 2 ^ 16)
  /\ sent (fst (sendHandShake (mkConn [] 100 []) "example.com:40000"))
     = sent (mkConn [] 100 [])
       ++ handshakeWireFormat "example.com" (40000 mod 2 ^ 16).
Proof.
  apply (port_bytes_modulo (mkConn [] 100 []) "example.com:40000"
           "example.com" "40000" 40000).
  - reflexivity.
  - reflexivity.
  - vm_compute. discriminate.
Defined.
